(** * load-common-gulp-tasks: the run-state and termination protocol of index.js

    A shallow embedding of [src/index.js]: the four closure variables that
    track a run, the functions and listeners that read and write them, the
    process-level runtime that delivers stream events to those listeners, and
    the option merge performed when the module is loaded.

    Conventions.
    - The closure variables are JavaScript numbers that only ever hold small
      non-negative integers; they are modelled as [Z], and [+=] as exact
      addition (doubles add integers exactly below 2^53, and an array length
      is below 2^32).
    - Everything the code prints or asks of the process is recorded, in
      order, in the [out] field of the process.
    - External tools (less, jshint, mocha, istanbul, the coverage enforcer)
      appear only through the events their streams deliver. *)

From Stdlib Require Import ZArith List String Bool Lia DecimalString.
Import ListNotations.
Local Open Scope string_scope.
Local Open Scope list_scope.
Local Open Scope Z_scope.

(* ===================================================================== *)
(** ** Run state (index.js, lines 25-29) *)
(* ===================================================================== *)

Record RunState : Type := mkRunState {
  exitCode          : Z;
  totalLintErrors   : Z;
  totalFelintErrors : Z;
  lessError         : Z
}.

(** [var exitCode = 0, totalLintErrors = 0, totalFelintErrors = 0, lessError = 0;] *)
Definition initial : RunState := mkRunState 0 0 0 0.

(** JavaScript truthiness of a number that holds an integer. *)
Definition truthy (n : Z) : bool := negb (n =? 0).

(** [n + ''] for an integer-valued number. *)
Definition to_str (n : Z) : string := NilZero.string_of_int (Z.to_int n).

(* ===================================================================== *)
(** ** What the code does to the outside world *)
(* ===================================================================== *)

Inductive colour : Type := Red | RedBold | Green | GreenBold | Magenta.

Inductive effect : Type :=
| ConsoleLog (args : list string)   (* console.log(a, b, ...) *)
| GutilLog (msg : string)           (* gutil.log(x) *)
| Beep                              (* gutil.beep() *)
| EmitExit                          (* process.emit('exit') *)
| ProcessExit (code : Z).           (* process.exit(code) *)

(** The callbacks the code hands to [process.nextTick]; there is one, the
    closure of lines 88-92. *)
Inductive callback : Type := ExitTick.

(** What the code reads from its host: [process.platform], [gulp.seq] and
    the colouring functions of [gutil.colors]; and one trait of the runtime:
    whether a callback that a listener of ['exit'] hands to
    [process.nextTick] still runs when the process ends for lack of work.
    Node abandons such callbacks, so the field is [false] on a real host;
    [true] describes a runtime that would run them, and what is proved
    about the end of the process holds for both unless it says otherwise. *)
Record Host : Type := mkHost {
  platform   : string;
  seq        : list string;
  paint      : colour -> string -> string;
  exit_ticks : bool
}.

(** The process: the closure variables, the next-tick queue, whether
    [process.exit] has been called (and with what status) and the output so
    far. *)
Record Proc : Type := mkProc {
  vars   : RunState;
  ticks  : list callback;
  halted : option Z;
  out    : list effect
}.

(** The process as it is when the module has been loaded. *)
Definition boot : Proc := mkProc initial [] None [].

(* ===================================================================== *)
(** ** A small state monad over the process *)
(* ===================================================================== *)

Definition M (A : Type) : Type := Proc -> A * Proc.

Definition ret {A} (a : A) : M A := fun p => (a, p).

Definition bind {A B} (m : M A) (k : A -> M B) : M B :=
  fun p => let (a, p') := m p in k a p'.

Declare Scope js_scope.
Delimit Scope js_scope with js.
Notation "x <- m ;; k" := (bind m (fun x => k))
  (at level 61, m at next level, right associativity) : js_scope.
Notation "m ;; k" := (bind m (fun _ => k))
  (at level 61, right associativity) : js_scope.
Local Open Scope js_scope.

Definition exec (m : M unit) (p : Proc) : Proc := snd (m p).

Definition read {A} (f : RunState -> A) : M A := fun p => (f (vars p), p).

Definition write (f : RunState -> RunState) : M unit :=
  fun p => (tt, mkProc (f (vars p)) (ticks p) (halted p) (out p)).

Definition tell (e : effect) : M unit :=
  fun p => (tt, mkProc (vars p) (ticks p) (halted p) (out p ++ [e])).

Definition when (b : bool) (m : M unit) : M unit := if b then m else ret tt.

(** Assignments to the four variables. *)
Definition set_exitCode (v : Z) (s : RunState) : RunState :=
  mkRunState v (totalLintErrors s) (totalFelintErrors s) (lessError s).
Definition set_totalLintErrors (v : Z) (s : RunState) : RunState :=
  mkRunState (exitCode s) v (totalFelintErrors s) (lessError s).
Definition set_totalFelintErrors (v : Z) (s : RunState) : RunState :=
  mkRunState (exitCode s) (totalLintErrors s) v (lessError s).
Definition set_lessError (v : Z) (s : RunState) : RunState :=
  mkRunState (exitCode s) (totalLintErrors s) (totalFelintErrors s) v.

(** Host primitives. *)
Definition console_log (args : list string) : M unit := tell (ConsoleLog args).
Definition gutil_log (msg : string) : M unit := tell (GutilLog msg).
Definition gutil_beep : M unit := tell Beep.

(** [process.nextTick(cb)]: the callback joins the end of the queue. *)
Definition process_nextTick (cb : callback) : M unit :=
  fun p => (tt, mkProc (vars p) (ticks p ++ [cb]) (halted p) (out p)).

(** The listener registered by [process.on('exit', ...)], lines 87-93: it
    only schedules the callback. *)
Definition on_exit : M unit := process_nextTick ExitTick.

(** [process.emit('exit')] as the task code calls it: the listeners of
    ['exit'] run synchronously. *)
Definition process_emit_exit : M unit := tell EmitExit ;; on_exit.

(** [process.exit(code)]: Node emits ['exit'] to the listeners and then
    ends the process; nothing queued runs any more. *)
Definition process_exit (code : Z) : M unit :=
  tell (ProcessExit code) ;;
  on_exit ;;
  fun p => (tt, mkProc (vars p) (ticks p) (Some code) (out p)).

(* ===================================================================== *)
(** ** The functions of index.js *)
(* ===================================================================== *)

(** One file as it leaves [jshint(...)]: [file.jshint.success] and
    [file.jshint.results]. *)
Record JsHint : Type := mkJsHint {
  success : bool;
  results : list string
}.

Record File : Type := mkFile {
  path   : string;
  jshint : JsHint
}.

(* ===================================================================== *)
(** ** The registered tasks *)
(* ===================================================================== *)

Inductive task : Type :=
| LessTest | Lint | LintWatch | Felint | FelintWatch
| TestCover | TestCoverWatch | Test | TestWatch
| Plato | Ci | CiWatch | WatchAll | Watch.

(** What a stream of a task can deliver to the listeners the task
    installed. *)
Inductive signal : Type :=
| Data (file : File)            (* a file reaches the [map] stage *)
| Error (err : string)          (* 'error' on the less or mocha stream *)
| EnforcerError (err : string)  (* 'error' on the covEnforcer stream *)
| InstrumentEnd                 (* 'end' of the istanbul() stream of cover *)
| End.                          (* 'end' of the stream the task listens on *)


(** [gulp.task(name, help, deps, fn)]: the catalogue in the order of the
    source; [help = None] stands for [false] (a task hidden from the
    listing), [kind] names the function registered. *)
Record TaskDescriptor : Type := mkTask {
  name : string;
  help : option string;
  deps : list string;
  kind : task
}.

Definition registry : list TaskDescriptor := [
  mkTask "lessTest" (Some "Check for LESS compilation errors") [] LessTest;
  mkTask "lint" (Some "Lint server side js") [] Lint;
  mkTask "lint-watch" None [] LintWatch;
  mkTask "felint" (Some "Lint client side js") [] Felint;
  mkTask "felint-watch" None [] FelintWatch;
  mkTask "test-cover" (Some "Unit tests and coverage") [] TestCover;
  mkTask "test-cover-watch" None [] TestCoverWatch;
  mkTask "test" (Some "Unit tests only") [] Test;
  mkTask "test-watch" None [] TestWatch;
  mkTask "plato" (Some "Generate complexity analysis reports with plato") [] Plato;
  mkTask "ci" (Some "Lint, tests and test coverage")
         ["lessTest"; "lint"; "felint"; "test-cover"] Ci;
  mkTask "ci-watch" None
         ["lessTest"; "lint-watch"; "felint-watch"; "test-cover-watch"] CiWatch;
  mkTask "watch-all" (Some "Watch files and run all ci validation on change") [] WatchAll;
  mkTask "watch" (Some "Watch files and run tests on change") [] Watch
].

Definition lookup (nm : string) : option TaskDescriptor :=
  find (fun d => String.eqb (name d) nm) registry.

Definition dependencies (nm : string) : list string :=
  match lookup nm with
  | Some d => deps d
  | None => []
  end.

(** The line feed of the ['\n'] escapes. *)
Definition nl : string := String (Ascii.ascii_of_nat 10) EmptyString.

Section Functions.

Variable h : Host.

Definition not_win32 : bool :=
  if string_dec (platform h) "win32" then false else true.

(** Lines 95-99. *)
Definition taskPassed (taskName : string) : M unit :=
  let check := paint h GreenBold (if not_win32 then "✔ " else "") in
  let msg := (check ++ "gulp '" ++ taskName ++ "' passed")%string in
  console_log [paint h Green msg].

(** Lines 102-107. *)
Definition beforeEach : M unit :=
  write (set_totalLintErrors 0) ;;
  write (set_totalFelintErrors 0) ;;
  write (set_exitCode 0) ;;
  write (set_lessError 0).

(** Lines 113-121: the call itself, and the ['error'] listener it installs. *)
Definition lessTest : M unit := beforeEach.

Definition lessTest_on_error (err : string) : M unit :=
  write (set_lessError 1) ;;
  gutil_log err.

(** Lines 123-131. *)
Definition lessOnEnd : M unit :=
  le <- read lessError ;;
  if truthy le then
    let errString :=
      (nl ++ (if not_win32 then "✖ " else "") ++ "Less errors found" ++ nl)%string in
    console_log [paint h RedBold errString] ;;
    gutil_beep
  else
    taskPassed "lessTest".

(** Lines 145-157: the call itself, and the [map] callback applied to each
    file ([cb(null, file)] hands the file on unchanged). *)
Definition lint : M unit := beforeEach.

Definition lint_map (file : File) : M unit :=
  when (negb (success (jshint file)))
    (n <- read totalLintErrors ;;
     write (set_totalLintErrors (n + Z.of_nat (List.length (results (jshint file))))) ;;
     write (set_exitCode 1)).

(** Lines 159-167. *)
Definition lintOnEnd : M unit :=
  n <- read totalLintErrors ;;
  let errString := to_str n in
  ec <- read exitCode ;;
  if truthy ec then
    console_log [paint h Magenta errString; ("errors" ++ nl)%string] ;;
    gutil_beep
  else
    taskPassed "lint".

(** Lines 194-206. *)
Definition felint : M unit := beforeEach.

Definition felint_map (file : File) : M unit :=
  when (negb (success (jshint file)))
    (n <- read totalFelintErrors ;;
     write (set_totalFelintErrors (n + Z.of_nat (List.length (results (jshint file))))) ;;
     write (set_exitCode 1)).

(** Lines 208-216. *)
Definition felintOnEnd : M unit :=
  n <- read totalFelintErrors ;;
  let errString := to_str n in
  ec <- read exitCode ;;
  if truthy ec then
    console_log [paint h Magenta errString; ("errors" ++ nl)%string] ;;
    gutil_beep
  else
    taskPassed "felint".

(** Lines 243-247; [err] stands for [err.message]. *)
Definition testErrorHandler (err : string) : M unit :=
  gutil_beep ;;
  gutil_log err ;;
  write (set_exitCode 1).

(** Lines 249-257: the call itself; [cb] runs when instrumentation ends. *)
Definition cover : M unit := beforeEach.

(** The callback of lines 88-92. *)
Definition exit_tick : M unit :=
  let msg := ("gulp '" ++ String.concat "," (seq h) ++ "' failed")%string in
  console_log [paint h Red msg] ;;
  ec <- read exitCode ;;
  process_exit ec.

Definition run_callback (cb : callback) : M unit :=
  match cb with ExitTick => exit_tick end.

(** The synchronous part of the function registered for a task: what
    happens when gulp calls it. *)
Definition task_fn (t : task) : M unit :=
  match t with
  | LessTest => lessTest
  | Lint | LintWatch => lint
  | Felint | FelintWatch => felint
  | TestCover | TestCoverWatch => cover
  | Test | TestWatch => ret tt
  | Plato => ret tt
  | Ci | CiWatch => ret tt
  | WatchAll | Watch => ret tt
  end.

(** The listeners each task has installed on its streams. *)
Definition listener (t : task) (s : signal) : M unit :=
  match t, s with
  (* lines 117-120 and 133-139 *)
  | LessTest, Error err => lessTest_on_error err
  | LessTest, End => lessOnEnd
  (* lines 169-180 *)
  | Lint, Data file => lint_map file
  | Lint, End =>
      lintOnEnd ;;
      ec <- read exitCode ;;
      when (truthy ec) process_emit_exit
  (* lines 182-188 *)
  | LintWatch, Data file => lint_map file
  | LintWatch, End => lintOnEnd
  (* lines 218-229 *)
  | Felint, Data file => felint_map file
  | Felint, End =>
      felintOnEnd ;;
      ec <- read exitCode ;;
      when (truthy ec) process_emit_exit
  (* lines 231-237 *)
  | FelintWatch, Data file => felint_map file
  | FelintWatch, End => felintOnEnd
  (* lines 259-278 *)
  | TestCover, Error err => testErrorHandler err ;; process_emit_exit
  | TestCover, EnforcerError err => testErrorHandler err ;; process_emit_exit
  (* lines 280-293 *)
  | TestCoverWatch, Error err => testErrorHandler err
  | TestCoverWatch, EnforcerError err => testErrorHandler err
  (* lines 295-305 *)
  | Test, Error err => testErrorHandler err ;; process_emit_exit
  (* lines 307-317 *)
  | TestWatch, Error err => testErrorHandler err
  | _, _ => ret tt
  end.

End Functions.

(* ===================================================================== *)
(** ** The runtime: how events reach the code *)
(* ===================================================================== *)

(** What the host does to the code: gulp calls the function of a task, or
    a stream of a task delivers a signal to the listeners of that task. *)
Inductive event : Type :=
| Start (t : task)
| Emit (t : task) (s : signal).

Section Runtime.

Variable h : Host.

Definition handler (e : event) : M unit :=
  match e with
  | Start t => task_fn t
  | Emit t s => listener h t s
  end.

(** After the synchronous code of an event, Node runs the next-tick queue.
    The only callback there is ends the process, so running the head of the
    queue empties it or halts (lemma [drain_done]). *)
Definition drain (p : Proc) : Proc :=
  match halted p, ticks p with
  | None, cb :: rest =>
      exec (run_callback h cb) (mkProc (vars p) rest None (out p))
  | _, _ => p
  end.

(** One turn of the event loop; a process that has exited runs nothing. *)
Definition deliver (m : M unit) (p : Proc) : Proc :=
  match halted p with
  | Some _ => p
  | None => drain (exec m p)
  end.

Definition step (p : Proc) (e : event) : Proc := deliver (handler e) p.

Definition run (es : list event) (p : Proc) : Proc := fold_left step es p.

(** The process runs out of work: Node itself emits ['exit'] and the
    listener of lines 87-93 runs.  The callback it schedules runs or is
    dropped with the queue, as the Node version has it. *)
Definition process_end (p : Proc) : Proc :=
  if exit_ticks h then deliver on_exit p
  else match halted p with
       | Some _ => p
       | None => exec on_exit p
       end.

(** The status the operating system sees: the argument of [process.exit],
    else Node's default. *)
Definition exit_status (p : Proc) : Z :=
  match halted p with
  | Some code => code
  | None => 0
  end.

(** [gulp <name>]: the orchestrator calls the functions of the
    dependencies of the task, or the function of the task when it has
    none, before any stream delivers an event. *)
Definition launch (nm : string) : list event :=
  match lookup nm with
  | None => []
  | Some d =>
      match deps d with
      | [] => [Start (kind d)]
      | ds => flat_map (fun n => match lookup n with
                                 | Some d' => [Start (kind d')]
                                 | None => []
                                 end) ds
      end
  end.

End Runtime.

(** *** Observations on a list of events and on the output *)

Definition is_process_exit (x : effect) : bool :=
  match x with ProcessExit _ => true | _ => false end.

Definition is_emit_exit (x : effect) : bool :=
  match x with EmitExit => true | _ => false end.

(** A file that failed lint reaches a [map] stage, or a test stream
    reports an error: the events after which the code sets [exitCode]. *)
Definition reports_failure (e : event) : bool :=
  match e with
  | Emit (Lint | LintWatch | Felint | FelintWatch) (Data file) =>
      negb (success (jshint file))
  | Emit (TestCover | TestCoverWatch | Test | TestWatch) (Error _) => true
  | Emit (TestCover | TestCoverWatch) (EnforcerError _) => true
  | _ => false
  end.

(** The less stream of lessTest reports an error. *)
Definition reports_less_error (e : event) : bool :=
  match e with
  | Emit LessTest (Error _) => true
  | _ => false
  end.

Definition is_end_of (t : task) (e : event) : bool :=
  match t, e with
  | Lint, Emit Lint End => true
  | Felint, Emit Felint End => true
  | _, _ => false
  end.

(** Every file of the lint and felint tasks is followed, later, by the
    ['end'] of its stream. *)
Fixpoint streams_closed (es : list event) : bool :=
  match es with
  | [] => true
  | e :: rest =>
      match e with
      | Emit Lint (Data _) => existsb (is_end_of Lint) rest
      | Emit Felint (Data _) => existsb (is_end_of Felint) rest
      | _ => true
      end && streams_closed rest
  end.

(** The tasks whose function calls [beforeEach]. *)
Definition resets (t : task) : bool :=
  match t with
  | LessTest | Lint | LintWatch | Felint | FelintWatch
  | TestCover | TestCoverWatch => true
  | _ => false
  end.

(** The tasks that run in watch mode: the two watchers, the task each of
    them starts on a change, and the dependencies of ci-watch. *)
Definition watch_variant (t : task) : bool :=
  match t with
  | WatchAll | Watch | CiWatch
  | LessTest | LintWatch | FelintWatch | TestCoverWatch | TestWatch => true
  | _ => false
  end.

Definition watch_event (e : event) : bool :=
  match e with
  | Start t => watch_variant t
  | Emit t _ => watch_variant t
  end.

(** The files that failed, and the sum of [file.jshint.results.length]
    over them. *)
Definition failing (files : list File) : list File :=
  filter (fun f => negb (success (jshint f))) files.

Definition violations (files : list File) : Z :=
  fold_right Z.add 0
    (map (fun f => Z.of_nat (List.length (results (jshint f)))) (failing files)).

(** The events of one stream of files. *)
Definition data (t : task) (files : list File) : list event :=
  map (fun f => Emit t (Data f)) files.

(** The listeners of the tasks other than the watch variants at which the
    code calls [process.emit('exit')], given the variables as they are when
    the event arrives. *)
Definition escalates (e : event) (s : RunState) : bool :=
  match e with
  | Emit (Lint | Felint) End => truthy (exitCode s)
  | Emit (TestCover | Test) (Error _) => true
  | Emit TestCover (EnforcerError _) => true
  | _ => false
  end.

(** A test stream reports an error. *)
Definition reports_test_error (e : event) : bool :=
  match e with
  | Emit (TestCover | TestCoverWatch | Test | TestWatch) (Error _) => true
  | Emit (TestCover | TestCoverWatch) (EnforcerError _) => true
  | _ => false
  end.

(** The events of a run of ci: signals of its four dependencies. *)
Definition ci_signal (e : event) : bool :=
  match e with
  | Emit (LessTest | Lint | Felint | TestCover) _ => true
  | _ => false
  end.

(** The message of the callback of lines 88-92. *)
Definition failed_message (h : Host) : effect :=
  ConsoleLog [paint h Red ("gulp '" ++ String.concat "," (seq h) ++ "' failed")%string].

(** A run of ci to the end of the process. *)
Definition ci_run (h : Host) (es : list event) : Proc :=
  process_end h (run h (launch "ci" ++ es) boot).

(** Sample inputs. *)
Definition posix (tasks : list string) : Host :=
  mkHost "linux" tasks (fun _ s => s) false.

Definition posix_ticking (tasks : list string) : Host :=
  mkHost "linux" tasks (fun _ s => s) true.

Definition clean (p : string) : File := mkFile p (mkJsHint true []).

Definition dirty (p : string) (msgs : list string) : File := mkFile p (mkJsHint false msgs).

(* ===================================================================== *)
(** ** The options: defaults and [_.merge] (lines 32-81) *)
(* ===================================================================== *)

Module Options.

(** JavaScript values as far as option objects need them. An object keeps
    its properties in insertion order; its keys are pairwise distinct
    ([wf]). *)
#[warnings="-register-all"]
Inductive jsval : Type :=
| Undefined
| Null
| Bool (b : bool)
| Num (n : Z)
| Str (s : string)
| Arr (items : list jsval)
| Obj (props : list (string * jsval)).

(** [_.isArray]. *)
Definition isArray (v : jsval) : bool :=
  match v with Arr _ => true | _ => false end.

(** [typeof v == 'undefined']. *)
Definition is_undefined (v : jsval) : bool :=
  match v with Undefined => true | _ => false end.

(** Neither undefined nor a container. *)
Definition is_scalar (v : jsval) : bool :=
  match v with Null | Bool _ | Num _ | Str _ => true | _ => false end.

(** [object[key]]. *)
Fixpoint get (key : string) (props : list (string * jsval)) : jsval :=
  match props with
  | [] => Undefined
  | (k, v) :: rest => if String.eqb k key then v else get key rest
  end.

(** [object[key] = v]. *)
Fixpoint assign (key : string) (v : jsval) (props : list (string * jsval))
  : list (string * jsval) :=
  match props with
  | [] => [(key, v)]
  | (k, w) :: rest =>
      if String.eqb k key then (k, v) :: rest else (k, w) :: assign key v rest
  end.

Fixpoint has (key : string) (props : list (string * jsval)) : bool :=
  match props with
  | [] => false
  | (k, _) :: rest => String.eqb k key || has key rest
  end.

Fixpoint distinct_keys (props : list (string * jsval)) : bool :=
  match props with
  | [] => true
  | (k, _) :: rest => negb (has k rest) && distinct_keys rest
  end.

(** The keys of every object inside [v] are pairwise distinct. *)
Fixpoint wf (v : jsval) : bool :=
  match v with
  | Arr items => forallb wf items
  | Obj props => distinct_keys props && forallb (fun kv => wf (snd kv)) props
  | _ => true
  end.

(** [v.k1.k2...]: reading along a path of property names. *)
Fixpoint get_path (p : list string) (v : jsval) : jsval :=
  match p with
  | [] => v
  | k :: rest =>
      match v with
      | Obj props => get_path rest (get k props)
      | _ => Undefined
      end
  end.

(** *** The values the caller passes

    An array or object of the caller is an object of the heap: the same one
    may be reached under several keys.  [id] is its identity; two
    occurrences with one [id] stand for one object. *)
#[warnings="-register-all"]
Inductive jsref : Type :=
| RUndefined
| RNull
| RBool (b : bool)
| RNum (n : Z)
| RStr (s : string)
| RArr (id : nat) (items : list jsref)
| RObj (id : nat) (props : list (string * jsref)).

(** What an object of the caller holds, identities left out. *)
Fixpoint content (r : jsref) : jsval :=
  match r with
  | RUndefined => Undefined
  | RNull => Null
  | RBool b => Bool b
  | RNum n => Num n
  | RStr s => Str s
  | RArr _ items => Arr (map content items)
  | RObj _ props => Obj (map (fun kv => (fst kv, content (snd kv))) props)
  end.

(** The identities of the arrays and objects inside a value. *)
Fixpoint ids (r : jsref) : list nat :=
  match r with
  | RArr id items => id :: flat_map ids items
  | RObj id props => id :: flat_map (fun kv => ids (snd kv)) props
  | _ => []
  end.

Fixpoint distinct_ids (l : list nat) : bool :=
  match l with
  | [] => true
  | x :: rest => negb (existsb (Nat.eqb x) rest) && distinct_ids rest
  end.

(** No array or object occurs twice in the value. *)
Definition alias_free (r : jsref) : bool := distinct_ids (ids r).

(** *** lodash's merge

    Not part of this repository; modelled after [baseMerge] of lodash 2.4,
    whose documentation reads: the own enumerable properties of the source
    that do not resolve to undefined are merged recursively into the
    destination; when a callback is given it is called with (destination
    value, source value) and, unless it returns undefined, what it returns
    is assigned in place of the merge.  [baseMerge] keeps two stacks, of
    the source objects it has merged and of what each was merged to, and
    when a source object comes up again it assigns the earlier result
    without calling the callback. *)

(** [stackA] and [stackB], as pairs, the latest first. *)
Definition stack : Type := list (nat * jsval).

Definition found (id : nat) (st : stack) : option jsval :=
  match find (fun e => Nat.eqb (fst e) id) st with
  | Some e => Some (snd e)
  | None => None
  end.

(** None of the identities is on the stacks. *)
Definition unseen (l : list nat) (st : stack) : bool :=
  forallb (fun i => negb (existsb (Nat.eqb i) (map fst st))) l.

Definition fresh (l : list nat) (st : stack) : Prop :=
  forall i, In i l -> ~ In i (map fst st).

Section Merge.

Variable callback : jsval -> jsval -> jsval.

(** The iteration of [forOwn] over the properties of a source object, and
    of [forEach] over the items of a source array; [each] computes the new
    [object[key]] from the old one and the source value, and passes the
    stacks on. *)
Definition forOwn (each : stack -> jsval -> jsref -> jsval * stack)
  (source : list (string * jsref)) (object : list (string * jsval)) (st : stack)
  : list (string * jsval) * stack :=
  fold_left
    (fun acc kv =>
       let (v, st') := each (snd acc) (get (fst kv) (fst acc)) (snd kv) in
       (assign (fst kv) v (fst acc), st'))
    source (object, st).

Fixpoint forEach (each : stack -> jsval -> jsref -> jsval * stack)
  (source : list jsref) (object : list jsval) (st : stack)
  : list jsval * stack :=
  match source with
  | [] => (object, st)
  | s :: rest =>
      let (v, st1) := each st (hd Undefined object) s in
      let (vs, st2) := forEach each rest (tl object) st1 in
      (v :: vs, st2)
  end.

(** The body of the iteratee of [baseMerge]: the value assigned to
    [object[key]], given its old value and the source value.  A source
    object is finite and cannot hold itself, so its entry on the stacks is
    not looked up while it is being merged; the entry is made here with the
    value the destination has when its merge is done. *)
Fixpoint mergeValue (st : stack) (value : jsval) (source : jsref) {struct source}
  : jsval * stack :=
  match source with
  | RArr id items =>
      match found id st with
      | Some earlier => (earlier, st)
      | None =>
          let result := callback value (content source) in
          if is_undefined result then
            let (merged, st') :=
              forEach mergeValue items
                (match value with Arr old => old | _ => [] end) st in
            (Arr merged, (id, Arr merged) :: st')
          else (result, (id, result) :: st)
      end
  | RObj id props =>
      match found id st with
      | Some earlier => (earlier, st)
      | None =>
          let result := callback value (content source) in
          if is_undefined result then
            let (merged, st') :=
              forOwn mergeValue props
                (match value with Obj old => old | _ => [] end) st in
            (Obj merged, (id, Obj merged) :: st')
          else (result, (id, result) :: st)
      end
  | _ =>
      let result := callback value (content source) in
      let result := if is_undefined result then content source else result in
      (if is_undefined result then value else result, st)
  end.

(** [baseMerge(object, source, callback, stackA, stackB)] on an object
    destination. *)
Definition baseMerge (object : list (string * jsval)) (source : jsref) (st : stack)
  : list (string * jsval) * stack :=
  match source with
  | RObj _ props => forOwn mergeValue props object st
  | RArr _ items =>
      forOwn mergeValue
        (combine (map (fun i => to_str (Z.of_nat i)) (List.seq 0 (List.length items)))
                 items)
        object st
  | _ => (object, st)
  end.

(** What the merge comes to when no source object comes up twice (lemma
    [mergeValue_alias_free]): the stacks play no part. *)
Definition ownTree (each : jsval -> jsval -> jsval)
  (source : list (string * jsval)) (object : list (string * jsval))
  : list (string * jsval) :=
  fold_left (fun obj kv => assign (fst kv) (each (get (fst kv) obj) (snd kv)) obj)
            source object.

Fixpoint eachTree (each : jsval -> jsval -> jsval)
  (source : list jsval) (object : list jsval) : list jsval :=
  match source with
  | [] => object
  | s :: rest => each (hd Undefined object) s :: eachTree each rest (tl object)
  end.

Fixpoint treeMerge (value source : jsval) {struct source} : jsval :=
  match source with
  | Arr items =>
      let result := callback value source in
      if is_undefined result then
        Arr (eachTree treeMerge items
               (match value with Arr old => old | _ => [] end))
      else result
  | Obj props =>
      let result := callback value source in
      if is_undefined result then
        Obj (ownTree treeMerge props
               (match value with Obj old => old | _ => [] end))
      else result
  | _ =>
      let result := callback value source in
      let result := if is_undefined result then source else result in
      if is_undefined result then value else result
  end.

End Merge.

(** The customizer of lines 79-81. *)
Definition customizer (a b : jsval) : jsval :=
  if isArray a then b else Undefined.

(** [_.merge(gulp.options, options, customizer)]: the stacks start empty. *)
Definition merge (object : list (string * jsval)) (options : jsref)
  : list (string * jsval) :=
  fst (baseMerge customizer object options []).

Definition rstrs (id : nat) (l : list string) : jsref := RArr id (map RStr l).

Definition strs (l : list string) : jsval := Arr (map Str l).

(** The defaults of lines 32-77; the two arguments stand for the results of
    the [path.join] calls. *)
Definition defaults (server client : string) : list (string * jsval) := [
  ("coverageSettings", Obj [
     ("thresholds", Obj [
        ("statements", Num 80);
        ("branches", Num 70);
        ("lines", Num 80);
        ("functions", Num 80)]);
     ("coverageDirectory", Str "./target/coverage");
     ("rootDirectory", Str "")]);
  ("paths", Obj [
     ("lint", strs ["lib/**/*.js"; "test/**/*.js"; "!node_modules/**"; "!target/**"]);
     ("felint", strs ["content/**/*.js"]);
     ("cover", strs ["lib/**/*.js"]);
     ("test", strs ["test/**/*.js"]);
     ("styles", Obj [
        ("less", strs ["content/styles/less/*.less"])])]);
  ("jshintrc", Obj [
     ("server", Str server);
     ("client", Str client)]);
  ("showStreamSize", Bool false);
  ("complexity", Obj [
     ("destDir", Str "./target/complexity");
     ("options", Obj [])]);
  ("lessOpts", Obj [
     ("paths", Arr [])])
].

(** Both objects have objects at every proper prefix of the path. *)
Fixpoint reachable (p : list string) (a b : jsval) : bool :=
  match p with
  | [] => true
  | k :: rest =>
      match a, b with
      | Obj pa, Obj pb => reachable rest (get k pa) (get k pb)
      | _, _ => false
      end
  end.

End Options.

(* ===================================================================== *)
(** ** Predicates used in the statements *)
(* ===================================================================== *)

(** A live process between two events: it has not exited and nothing is
    queued for the next tick. *)
Definition idle (p : Proc) : Prop := halted p = None /\ ticks p = [].

(** The flag holds one of the two values the code assigns to it. *)
Definition flag_ok (p : Proc) : Prop :=
  exitCode (vars p) = 0 \/ exitCode (vars p) = 1.

(** What one event makes the code print, from given variables. *)
Definition emitted (h : Host) (s : RunState) (e : event) : list effect :=
  out (step h (mkProc s [] None []) e).

(** Output that neither emits ['exit'] nor ends the process. *)
Definition quiet (d : list effect) : bool :=
  forallb (fun x => negb (is_process_exit x || is_emit_exit x)) d.

(** The same process with earlier output in front of its own. *)
Definition prepend (o : list effect) (p : Proc) : Proc :=
  mkProc (vars p) (ticks p) (halted p) (o ++ out p).

(** The number of calls of [process.exit] in an output. *)
Definition exits (d : list effect) : nat := List.length (filter is_process_exit d).

(** All but the last three effects. *)
Definition verdict_part (d : list effect) : list effect :=
  firstn (List.length d - 3) d.

(* ===================================================================== *)
(** ** Further observations *)
(* ===================================================================== *)

(** The messages of the verdicts. *)
Definition passed_message (h : Host) (taskName : string) : effect :=
  ConsoleLog [paint h Green
                (paint h GreenBold (if not_win32 h then "✔ " else "")
                   ++ "gulp '" ++ taskName ++ "' passed")%string].

Definition errors_message (h : Host) (n : Z) : effect :=
  ConsoleLog [paint h Magenta (to_str n); ("errors" ++ nl)%string].

Definition less_errors_message (h : Host) : effect :=
  ConsoleLog [paint h RedBold
                (nl ++ (if not_win32 h then "✖ " else "")
                    ++ "Less errors found" ++ nl)%string].

(** Some file of the list failed. *)
Definition any_failing (files : list File) : bool :=
  existsb (fun f => negb (success (jshint f))) files.

(** The errors of a less stream, as events. *)
Definition less_errors (errs : list string) : list event :=
  map (fun err => Emit LessTest (Error err)) errs.

(** Events that do not call [beforeEach]. *)
Definition keeps_state (e : event) : bool :=
  match e with
  | Start t => negb (resets t)
  | Emit _ _ => true
  end.

(** The events at which a listener assigns to each variable. *)
Definition writes_lint (e : event) : bool :=
  match e with
  | Emit (Lint | LintWatch) (Data file) => negb (success (jshint file))
  | _ => false
  end.

Definition writes_felint (e : event) : bool :=
  match e with
  | Emit (Felint | FelintWatch) (Data file) => negb (success (jshint file))
  | _ => false
  end.

(** Every [process.exit] in the output is called with 0 or 1. *)
Definition exit_codes_ok (d : list effect) : bool :=
  forallb (fun x => match x with
                    | ProcessExit code => (code =? 0) || (code =? 1)
                    | _ => true
                    end) d.

(** What holds of the variables at any time. *)
Definition consistent (s : RunState) : Prop :=
  (exitCode s = 0 \/ exitCode s = 1) /\
  (lessError s = 0 \/ lessError s = 1) /\
  0 <= totalLintErrors s /\
  0 <= totalFelintErrors s /\
  (exitCode s = 0 -> totalLintErrors s = 0 /\ totalFelintErrors s = 0).

(** Both values are objects: the one case in which [_.merge] descends. *)
Definition both_objects (a b : Options.jsval) : bool :=
  match a, b with
  | Options.Obj _, Options.Obj _ => true
  | _, _ => false
  end.

(* ===================================================================== *)
(** ** The comment removal of the plato task (lines 325-333) *)
(* ===================================================================== *)

Module Plato.

(** A JavaScript string is a sequence of UTF-16 code units. *)
Definition text : Type := list N.

Definition of_string (s : string) : text :=
  map (fun c => N.of_nat (Ascii.nat_of_ascii c)) (list_ascii_of_string s).

Definition LF : N := 10.
Definition CR : N := 13.
Definition LS : N := 8232.
Definition PS : N := 8233.
Definition slash : N := 47.
Definition star : N := 42.

Definition is_line_terminator (c : N) : bool :=
  (c =? LF)%N || (c =? CR)%N || (c =? LS)%N || (c =? PS)%N.

(** [.] : any code unit but a line terminator. *)
Definition dot (c : N) : bool := negb (is_line_terminator c).

(** [[\n\r]]. *)
Definition nl_or_cr (c : N) : bool := (c =? LF)%N || (c =? CR)%N.

(** The forms of pattern the expression is built from. *)
Inductive regex : Type :=
| Lit (l : text)                 (* the characters of l, in order *)
| PlusLazy (cls : N -> bool)     (* c+? *)
| StarGreedy (cls : N -> bool)   (* c*  *)
| Ahead (cls : N -> bool)        (* (?=c) *)
| Seq (r1 r2 : regex)
| Alt (r1 r2 : regex).

(** Matching as ECMAScript defines it, by backtracking with a continuation:
    [k] tries the rest of the pattern on the rest of the input and answers
    with what is left after the whole match. *)
Fixpoint after_prefix (l s : text) : option text :=
  match l, s with
  | [], _ => Some s
  | a :: l', c :: s' => if (a =? c)%N then after_prefix l' s' else None
  | _ :: _, [] => None
  end.

(** [c*?] : as few as will do. *)
Fixpoint lazy (cls : N -> bool) (k : text -> option text) (s : text) : option text :=
  match k s with
  | Some r => Some r
  | None =>
      match s with
      | c :: s' => if cls c then lazy cls k s' else None
      | [] => None
      end
  end.

(** [c*] : as many as will do. *)
Fixpoint greedy (cls : N -> bool) (k : text -> option text) (s : text) : option text :=
  match s with
  | c :: s' =>
      if cls c then
        match greedy cls k s' with
        | Some r => Some r
        | None => k s
        end
      else k s
  | [] => k s
  end.

Fixpoint matcher (r : regex) (s : text) (k : text -> option text) : option text :=
  match r with
  | Lit l =>
      match after_prefix l s with
      | Some rest => k rest
      | None => None
      end
  | PlusLazy cls =>
      match s with
      | c :: s' => if cls c then lazy cls k s' else None
      | [] => None
      end
  | StarGreedy cls => greedy cls k s
  | Ahead cls =>
      match s with
      | c :: _ => if cls c then k s else None
      | [] => None
      end
  | Seq r1 r2 => matcher r1 s (fun rest => matcher r2 rest k)
  | Alt r1 r2 =>
      match matcher r1 s k with
      | Some r => Some r
      | None => matcher r2 s k
      end
  end.

(** A match that starts at the head of [s]: what is left after it. *)
Definition match_at (r : regex) (s : text) : option text := matcher r s Some.

(** [s.replace(r, '')] for a global [r]: from left to right, each match is
    dropped and the search goes on behind it; where nothing matches (or
    only the empty string) the character stays.  [skip] counts the
    characters of the current match still to drop. *)
Fixpoint remove_all (r : regex) (skip : nat) (s : text) : text :=
  match s with
  | [] => []
  | c :: s' =>
      match skip with
      | S n => remove_all r n s'
      | O =>
          match match_at r s with
          | Some rest =>
              match (List.length s - List.length rest)%nat with
              | S n => remove_all r n s'
              | O => c :: remove_all r 0 s'
              end
          | None => c :: remove_all r 0 s'
          end
      end
  end.

(** [/\/\*.+?\*\/|\/\/.*(?=[\n\r])/g], line 326. *)
Definition commentRemovalRegex : regex :=
  Alt (Seq (Lit [slash; star]) (Seq (PlusLazy dot) (Lit [star; slash])))
      (Seq (Lit [slash; slash]) (Seq (StarGreedy dot) (Ahead nl_or_cr))).

(** [data.replace(commentRemovalRegex, '')], line 333. *)
Definition strip_comments (data : text) : text :=
  remove_all commentRemovalRegex 0 data.

(** The continuations inside the two alternatives: the closing of a block
    comment, and the look ahead for the end of the line. *)
Definition closing (rest : text) : option text :=
  matcher (Lit [star; slash]) rest Some.

Definition line_end (rest : text) : option text :=
  matcher (Ahead nl_or_cr) rest Some.

Definition no_slash (s : text) : bool := forallb (fun c => negb (c =? slash)%N) s.

Definition one_line (s : text) : bool := forallb dot s.

End Plato.

(* ===================================================================== *)
(** ** Basic facts about the runtime *)
(* ===================================================================== *)

Ltac split_state s :=
  let ec := fresh "ec" in let tl := fresh "tl" in
  let tf := fresh "tf" in let le := fresh "le" in
  destruct s as [ec tl tf le]; destruct ec, le.

Ltac split_event e :=
  let t := fresh "t" in let sg := fresh "sg" in let f := fresh "file" in
  destruct e as [t | t sg];
  [ destruct t
  | destruct t; destruct sg as [f | ? | ? | | ];
    try (destruct f as [? [[|] ?]]) ].

Ltac idle_proc p H :=
  let s := fresh "s" in let tk := fresh "tk" in
  let hl := fresh "hl" in let o := fresh "o" in
  let H1 := fresh in let H2 := fresh in
  destruct p as [s tk hl o]; destruct H as [H1 H2]; cbn in H1, H2; subst.

Section Facts.

Variable h : Host.

Lemma run_cons e es p : run h (e :: es) p = run h es (step h p e).
Proof. reflexivity. Qed.

Lemma run_app es1 es2 p : run h (es1 ++ es2) p = run h es2 (run h es1 p).
Proof. unfold run. apply fold_left_app. Qed.

Lemma step_halted p e c : halted p = Some c -> step h p e = p.
Proof. unfold step, deliver. intros ->. reflexivity. Qed.

Lemma run_halted es : forall p c, halted p = Some c -> run h es p = p.
Proof.
  induction es as [| e es IH]; intros p c Hp; [reflexivity |].
  rewrite run_cons, (step_halted p e c Hp). eauto.
Qed.

(** The queue is really drained: afterwards it is empty, or the process
    has exited. *)
Lemma drain_done p :
  ticks (drain h p) = [] \/ halted (drain h p) <> None.
Proof.
  destruct p as [s [| [] tk] [c |] o]; cbn; auto; right; discriminate.
Qed.

(** Running the queue does not touch the variables. *)
Lemma drain_vars p : vars (drain h p) = vars p.
Proof. destruct p as [s [| [] tk] [c |] o]; reflexivity. Qed.

(** The output so far is only ever extended, and does not influence what
    an event does. *)
Lemma step_frame e s o :
  step h (mkProc s [] None o) e =
  let r := step h (mkProc s [] None []) e in
  mkProc (vars r) (ticks r) (halted r) (o ++ out r).
Proof.
  split_state s; split_event e; cbn; rewrite <- ?app_assoc, ?app_nil_r; reflexivity.
Qed.

Lemma step_out e s o :
  out (step h (mkProc s [] None o) e) = o ++ emitted h s e.
Proof. rewrite step_frame. reflexivity. Qed.

(** After an event a live process is idle again. *)
Lemma step_idle p e : idle p -> halted (step h p e) = None -> idle (step h p e).
Proof.
  intros Hp. idle_proc p Hp. split_state s; split_event e; cbn; intros E;
    try discriminate; split; reflexivity.
Qed.

Lemma step_flag_ok p e : idle p -> flag_ok p -> flag_ok (step h p e).
Proof.
  intros Hp. idle_proc p Hp. unfold flag_ok.
  split_state s; split_event e; cbn; intros [E | E]; try discriminate; auto.
Qed.

(** Every process reached from [boot] is either idle or has exited, and
    its flag is 0 or 1. *)
Lemma reachable_inv es :
  forall p, idle p -> flag_ok p ->
    (idle (run h es p) \/ halted (run h es p) <> None) /\ flag_ok (run h es p).
Proof.
  induction es as [| e es IH]; intros p Hp Hf.
  - auto.
  - rewrite run_cons. destruct (halted (step h p e)) as [c |] eqn:E.
    + rewrite (run_halted es _ c E). split.
      * right. rewrite E. discriminate.
      * apply step_flag_ok; assumption.
    + apply IH; [apply step_idle | apply step_flag_ok]; assumption.
Qed.

Lemma boot_idle : idle boot.
Proof. split; reflexivity. Qed.

Lemma boot_flag_ok : flag_ok boot.
Proof. left. reflexivity. Qed.

Lemma reachable_idle es :
  halted (run h es boot) = None -> idle (run h es boot) /\ flag_ok (run h es boot).
Proof.
  intros E. destruct (reachable_inv es boot boot_idle boot_flag_ok) as [[H | H] Hf].
  - auto.
  - congruence.
Qed.

(** The equations of the [map] stages and of [beforeEach]. *)
Lemma step_start_resets t s o :
  resets t = true -> step h (mkProc s [] None o) (Start t) = mkProc initial [] None o.
Proof. destruct t; intros E; try discriminate; reflexivity. Qed.

Lemma step_start_keeps t s o :
  resets t = false -> step h (mkProc s [] None o) (Start t) = mkProc s [] None o.
Proof. destruct t; intros E; try discriminate; reflexivity. Qed.

Lemma step_lint_data t f s o :
  t = Lint \/ t = LintWatch ->
  step h (mkProc s [] None o) (Emit t (Data f)) =
  mkProc (if success (jshint f) then s
          else mkRunState 1
                 (totalLintErrors s + Z.of_nat (List.length (results (jshint f))))
                 (totalFelintErrors s) (lessError s))
         [] None o.
Proof.
  intros [-> | ->]; destruct f as [pth [[|] res]]; destruct s; reflexivity.
Qed.

Lemma step_felint_data t f s o :
  t = Felint \/ t = FelintWatch ->
  step h (mkProc s [] None o) (Emit t (Data f)) =
  mkProc (if success (jshint f) then s
          else mkRunState 1 (totalLintErrors s)
                 (totalFelintErrors s + Z.of_nat (List.length (results (jshint f))))
                 (lessError s))
         [] None o.
Proof.
  intros [-> | ->]; destruct f as [pth [[|] res]]; destruct s; reflexivity.
Qed.

Lemma violations_cons f files :
  violations (f :: files) =
  (if success (jshint f) then 0 else Z.of_nat (List.length (results (jshint f))))
  + violations files.
Proof. unfold violations, failing. cbn. destruct (success (jshint f)); reflexivity. Qed.

(** A stream of files adds the violations of the failing ones to the
    counter of its category and leaves the other counters alone. *)
Lemma lint_stream t files :
  t = Lint \/ t = LintWatch ->
  forall s o,
    let r := run h (data t files) (mkProc s [] None o) in
    totalLintErrors (vars r) = totalLintErrors s + violations files /\
    totalFelintErrors (vars r) = totalFelintErrors s /\
    lessError (vars r) = lessError s /\
    idle r /\ out r = o.
Proof.
  intros Ht. induction files as [| f files IH]; intros s o.
  - cbn. unfold violations, idle. cbn. repeat split; lia.
  - cbn [data map]. rewrite run_cons, (step_lint_data t f s o Ht).
    specialize (IH (if success (jshint f) then s
                    else mkRunState 1
                           (totalLintErrors s + Z.of_nat (List.length (results (jshint f))))
                           (totalFelintErrors s) (lessError s)) o).
    cbn zeta in IH. destruct IH as (A & B & C & D & E).
    fold (data t files). rewrite A, B, C, violations_cons.
    destruct (success (jshint f)); cbn; repeat split; try apply D; try assumption; lia.
Qed.

Lemma felint_stream t files :
  t = Felint \/ t = FelintWatch ->
  forall s o,
    let r := run h (data t files) (mkProc s [] None o) in
    totalFelintErrors (vars r) = totalFelintErrors s + violations files /\
    totalLintErrors (vars r) = totalLintErrors s /\
    lessError (vars r) = lessError s /\
    idle r /\ out r = o.
Proof.
  intros Ht. induction files as [| f files IH]; intros s o.
  - cbn. unfold violations, idle. cbn. repeat split; lia.
  - cbn [data map]. rewrite run_cons, (step_felint_data t f s o Ht).
    specialize (IH (if success (jshint f) then s
                    else mkRunState 1 (totalLintErrors s)
                           (totalFelintErrors s + Z.of_nat (List.length (results (jshint f))))
                           (lessError s)) o).
    cbn zeta in IH. destruct IH as (A & B & C & D & E).
    fold (data t files). rewrite A, B, C, violations_cons.
    destruct (success (jshint f)); cbn; repeat split; try apply D; try assumption; lia.
Qed.

End Facts.

(* ===================================================================== *)
(** ** Reset, counting and failure reporting *)
(* ===================================================================== *)

(** C1 (as amended).  An error reported by the test runner or by the
    coverage enforcer sets [exitCode] to 1 in the listener that receives it,
    in every task that installs one.  A style-compilation error sets
    [lessError] to 1 and leaves [exitCode] as it was. *)
Theorem tool_error_sets_its_flag (h : Host) (p : Proc) (e : event) :
  idle p ->
  (reports_test_error e = true -> exitCode (vars (step h p e)) = 1) /\
  (reports_less_error e = true ->
     lessError (vars (step h p e)) = 1 /\
     exitCode (vars (step h p e)) = exitCode (vars p)).
Proof.
  intros Hp. idle_proc p Hp. split; intros E.
  - destruct e as [t | t [f | err | err | |]]; try discriminate E;
      destruct t; try discriminate E; reflexivity.
  - destruct e as [t | t [f | err | err | |]]; try discriminate E;
      destruct t; try discriminate E. destruct s. split; reflexivity.
Qed.

(** C1, counterexample.  The less stream of lessTest reports an error and
    [exitCode] is still 0. *)
Lemma less_error_leaves_exitCode :
  let p := run (posix ["lessTest"])
               [Start LessTest; Emit LessTest (Error "ParseError: missing closing brace")]
               boot in
  exitCode (vars p) = 0 /\ lessError (vars p) = 1 /\ halted p = None.
Proof. repeat split; reflexivity. Qed.

(** C3 (as amended).  When gulp calls the function of lessTest, lint,
    lint-watch, felint, felint-watch, test-cover or test-cover-watch, the
    four variables are zero before any event of the new pipeline is handled:
    the events are handled from the zero state.  The functions of the other
    tasks (test and test-watch among them) leave the variables as they
    are. *)
Theorem task_start_resets (h : Host) (t : task) (p : Proc) (es : list event) :
  idle p ->
  (resets t = true ->
     vars (step h p (Start t)) = initial /\
     run h (Start t :: es) p = run h es (mkProc initial [] None (out p))) /\
  (resets t = false ->
     run h (Start t :: es) p = run h es p).
Proof.
  intros Hp. idle_proc p Hp. split; intros E; rewrite run_cons.
  - rewrite (step_start_resets h t s o E). split; reflexivity.
  - rewrite (step_start_keeps h t s o E). reflexivity.
Qed.

(** C3, counterexample.  In watch mode a first run of test-watch fails; when
    gulp calls the function of test-watch again, [exitCode] is still 1. *)
Lemma test_watch_keeps_flag :
  let h := posix ["watch"] in
  let p := run h [Start Watch; Start TestWatch;
                  Emit TestWatch (Error "1 test failed")] boot in
  halted p = None /\ ticks p = [] /\
  exitCode (vars (step h p (Start TestWatch))) = 1.
Proof. repeat split; reflexivity. Qed.

(** C4.  In a run of lint or lint-watch the final [totalLintErrors], and in
    a run of felint or felint-watch the final [totalFelintErrors], is the sum
    of [file.jshint.results.length] over the files that failed, wherever the
    files that passed come in the stream. *)
Theorem lint_count_is_sum_over_failing (h : Host) (t : task)
  (files : list File) (p : Proc) :
  idle p ->
  (t = Lint \/ t = LintWatch ->
     totalLintErrors (vars (run h (Start t :: data t files) p)) = violations files) /\
  (t = Felint \/ t = FelintWatch ->
     totalFelintErrors (vars (run h (Start t :: data t files) p)) = violations files).
Proof.
  intros Hp. idle_proc p Hp. split; intros Ht; rewrite run_cons.
  - rewrite step_start_resets by (destruct Ht as [-> | ->]; reflexivity).
    destruct (lint_stream h t files Ht initial o) as (A & _). rewrite A. reflexivity.
  - rewrite step_start_resets by (destruct Ht as [-> | ->]; reflexivity).
    destruct (felint_stream h t files Ht initial o) as (A & _). rewrite A. reflexivity.
Qed.

(** C10.  The function of lessTest, lint, felint or cover (and of their
    watch variants) runs the one [beforeEach]: whatever the events handled
    before have accumulated, for any category, all four variables are zero
    after it. *)
Theorem shared_reset_erases_other_categories (h : Host) (t : task)
  (es : list event) :
  resets t = true ->
  halted (run h es boot) = None ->
  vars (run h (es ++ [Start t]) boot) = initial.
Proof.
  intros Ht Hlive. rewrite run_app.
  destruct (reachable_idle h es Hlive) as [Hidle _].
  destruct (run h es boot) as [s tk hl o]. destruct Hidle as [H1 H2]; cbn in H1, H2; subst.
  rewrite run_cons, (step_start_resets h t s o Ht). reflexivity.
Qed.

(* ===================================================================== *)
(** ** Termination: the exit callback, watch mode, escalation *)
(* ===================================================================== *)

Section Termination.

Variable h : Host.

Lemma quiet_app a b : quiet (a ++ b) = quiet a && quiet b.
Proof. apply forallb_app. Qed.

Lemma quiet_exits d : quiet d = true -> exits d = 0%nat.
Proof.
  unfold exits. induction d as [| x d IH]; intros E; [reflexivity |].
  cbn in E. apply andb_prop in E as [Ex Ed]. destruct x; cbn in *;
    try discriminate; auto.
Qed.

Lemma exits_app a b : exits (a ++ b) = (exits a + exits b)%nat.
Proof. unfold exits. rewrite filter_app, length_app. reflexivity. Qed.

(** A step that leaves the process alive printed nothing about exiting. *)
Lemma live_step_quiet s o e :
  halted (step h (mkProc s [] None o) e) = None -> quiet (emitted h s e) = true.
Proof.
  split_state s; split_event e; cbn; intros E; try discriminate; reflexivity.
Qed.

Lemma live_run_quiet es :
  forall p, idle p -> quiet (out p) = true ->
    halted (run h es p) = None -> quiet (out (run h es p)) = true.
Proof.
  induction es as [| e es IH]; intros p Hp Hq Hlive; [exact Hq |].
  rewrite run_cons in *.
  destruct (halted (step h p e)) as [c |] eqn:E.
  - rewrite (run_halted h es _ c E) in Hlive. congruence.
  - apply IH; auto using step_idle.
    idle_proc p Hp. rewrite step_out, quiet_app. cbn [out] in Hq. rewrite Hq.
    apply (live_step_quiet s o e E).
Qed.

(** In watch mode no listener emits ['exit']. *)
Lemma watch_step s o e :
  watch_event e = true ->
  idle (step h (mkProc s [] None o) e) /\ quiet (emitted h s e) = true.
Proof.
  unfold idle. split_state s; split_event e; cbn; intros E;
    try discriminate; repeat split; reflexivity.
Qed.

(** At an escalation point the listener prints its verdict, emits
    ['exit'], and the callback then prints the message and exits with 1. *)
Lemma escalation_step s o e :
  exitCode s = 0 \/ exitCode s = 1 ->
  escalates e s = true ->
  halted (step h (mkProc s [] None o) e) = Some 1 /\
  emitted h s e =
    verdict_part (emitted h s e) ++ [EmitExit; failed_message h; ProcessExit 1] /\
  quiet (verdict_part (emitted h s e)) = true.
Proof.
  destruct s as [ec tl tf le]. cbn [exitCode]. intros [-> | ->]; destruct le;
    split_event e; cbn; intros E; try discriminate; repeat split; reflexivity.
Qed.

(** Earlier output can be put in front afterwards. *)
Lemma step_prepend o p e :
  ticks p = [] \/ halted p <> None ->
  step h (prepend o p) e = prepend o (step h p e).
Proof.
  destruct p as [s tk [c |] o1]; intros [E | E]; cbn in E; try congruence.
  - reflexivity.
  - reflexivity.
  - subst tk. unfold prepend at 1. cbn [vars ticks halted out].
    rewrite (step_frame h e s (o ++ o1)), (step_frame h e s o1).
    unfold prepend. cbn. rewrite app_assoc. reflexivity.
Qed.

Lemma step_settled p e :
  ticks p = [] \/ halted p <> None ->
  ticks (step h p e) = [] \/ halted (step h p e) <> None.
Proof.
  intros [E | E].
  - destruct (halted p) as [c |] eqn:Hp.
    + right. rewrite (step_halted h p e c Hp), Hp. discriminate.
    + destruct (halted (step h p e)) eqn:Hs.
      * right. discriminate.
      * left. apply (step_idle h p e); [split |]; assumption.
  - destruct (halted p) as [c |] eqn:Hp; [| congruence].
    right. rewrite (step_halted h p e c Hp), Hp. discriminate.
Qed.

Lemma run_prepend o es :
  forall p, ticks p = [] \/ halted p <> None ->
    run h es (prepend o p) = prepend o (run h es p).
Proof.
  induction es as [| e es IH]; intros p Hp; [reflexivity |].
  rewrite !run_cons, step_prepend by assumption.
  apply IH, step_settled, Hp.
Qed.

End Termination.

(** C8 (as amended).  The callback of the ['exit'] listener has no
    condition: when a task calls [process.emit('exit')], the callback prints
    "gulp '<tasks>' failed" whatever the variables hold and calls
    [process.exit] with the value [exitCode] has then, and that value is the
    exit status.  At the end of a process that runs out of work the listener
    runs as well, but the callback it schedules is dropped: nothing more is
    printed and the status is 0, whatever [exitCode] holds. *)
Theorem exit_callback_runs_on_emit_only (h : Host) (p : Proc) :
  idle p ->
  (out (deliver h process_emit_exit p) =
     out p ++ [EmitExit; failed_message h; ProcessExit (exitCode (vars p))] /\
   exit_status (deliver h process_emit_exit p) = exitCode (vars p)) /\
  (exit_ticks h = false ->
   out (process_end h p) = out p /\
   exit_status (process_end h p) = 0).
Proof.
  intros Hp. idle_proc p Hp. destruct s as [ec tl tf le]. split.
  - unfold deliver, exit_status. cbn. rewrite <- !app_assoc. split; reflexivity.
  - intros Hn. unfold process_end. rewrite Hn. split; reflexivity.
Qed.

(** C8, counterexample.  A process in which nothing failed ends without
    the message being printed; and a process whose [exitCode] is 1 after a
    failed run of test-watch ends with nothing printed and status 0. *)
Lemma process_end_prints_nothing :
  let h := posix ["watch"] in
  let p := run h [Start Watch; Start TestWatch;
                  Emit TestWatch (Error "1 test failed")] boot in
  out (process_end (posix ["lint"]) boot) = [] /\
  exitCode (vars p) = 1 /\
  out (process_end h p) = out p /\
  exit_status (process_end h p) = 0.
Proof. repeat split; reflexivity. Qed.

(** C6.  Whatever the streams of the tasks that run in watch mode deliver
    (lint-watch, felint-watch, test-cover-watch, test-watch, lessTest, under
    ci-watch, watch-all and watch), the code never emits ['exit'] and never
    calls [process.exit]: it only logs and beeps, and the process stays
    alive, ready for the next event. *)
Theorem watch_mode_never_exits (h : Host) (es : list event) (p : Proc) :
  idle p ->
  forallb watch_event es = true ->
  idle (run h es p) /\
  exists d, out (run h es p) = out p ++ d /\ quiet d = true.
Proof.
  revert p. induction es as [| e es IH]; intros p Hp Hw.
  - split; [assumption |]. exists []. rewrite app_nil_r. auto.
  - cbn in Hw. apply andb_prop in Hw as [He Hes]. rewrite run_cons.
    idle_proc p Hp. destruct (watch_step h s o e He) as [Hi Hq].
    destruct (IH _ Hi Hes) as [Hidle [d [Hout Hd]]]. split; [assumption |].
    exists (emitted h s e ++ d). rewrite Hout, step_out, quiet_app, Hq, Hd.
    cbn [out]. rewrite app_assoc. auto.
Qed.

(** C5.  Outside watch mode, when a listener escalates a failure (the
    ['end'] of lint or felint with the flag set, an error of the test runner
    or of the coverage enforcer in test or test-cover), it prints its
    verdict and emits ['exit']; the deferred callback then prints the failure
    message and exits with status 1.  That is the only [process.exit] of the
    run, whatever was reported before and whatever the other streams would
    still have delivered. *)
Theorem escalation_exits_once (h : Host) (es : list event) (e : event)
  (es' : list event) :
  halted (run h es boot) = None ->
  escalates e (vars (run h es boot)) = true ->
  let before := run h es boot in
  let r := run h (es ++ e :: es') boot in
  let d := emitted h (vars before) e in
  out r = out before ++ verdict_part d ++ [EmitExit; failed_message h; ProcessExit 1] /\
  quiet (out before) = true /\
  quiet (verdict_part d) = true /\
  halted r = Some 1 /\
  exits (out r) = 1%nat.
Proof.
  intros Hlive Hesc before r d.
  destruct (reachable_idle h es Hlive) as [Hidle Hflag].
  assert (Hq : quiet (out before) = true)
    by (apply (live_run_quiet h es boot boot_idle eq_refl Hlive)).
  subst r d. rewrite run_app, run_cons. fold before in Hidle, Hflag, Hesc |- *.
  destruct before as [s tk hl o]. destruct Hidle as [H1 H2]. cbn in H1, H2. subst.
  cbn [vars out] in *.
  destruct (escalation_step h s o e Hflag Hesc) as (Hh & Hd & Hv).
  rewrite (run_halted h es' _ 1 Hh), step_out.
  assert (Hout : o ++ emitted h s e =
                 o ++ verdict_part (emitted h s e)
                   ++ [EmitExit; failed_message h; ProcessExit 1])
    by (rewrite <- Hd; reflexivity).
  rewrite Hout. repeat split; auto.
  rewrite !exits_app, (quiet_exits _ Hq), (quiet_exits _ Hv). reflexivity.
Qed.

(** C7 (as amended).  For a task whose function calls [beforeEach]
    (lessTest, lint, lint-watch, felint, felint-watch, test-cover,
    test-cover-watch), a second invocation ends with the variables, the
    liveness and the printed output it would have had as the first thing the
    process did, whatever the first invocation left behind. *)
Theorem second_invocation_independent (h : Host) (t : task)
  (es1 es2 : list event) :
  resets t = true ->
  halted (run h (Start t :: es1) boot) = None ->
  let first := run h (Start t :: es1) boot in
  let second := run h (Start t :: es2) first in
  let alone := run h (Start t :: es2) boot in
  vars second = vars alone /\
  halted second = halted alone /\
  out second = out first ++ out alone.
Proof.
  intros Ht Hlive first second alone.
  destruct (reachable_idle h _ Hlive) as [Hidle _].
  subst second alone. fold first in Hidle. destruct first as [s tk hl o].
  destruct Hidle as [H1 H2]. cbn in H1, H2. subst.
  rewrite !run_cons, (step_start_resets h t s o Ht).
  unfold boot. rewrite (step_start_resets h t initial [] Ht).
  replace (mkProc initial [] None o) with (prepend o (mkProc initial [] None []))
    by (unfold prepend; cbn; rewrite app_nil_r; reflexivity).
  rewrite run_prepend by (left; reflexivity). repeat split; reflexivity.
Qed.

(** C7, counterexample.  A first run of test-watch fails and a second one
    reports nothing: the second ends with [exitCode] 1, where the same run
    on its own ends with 0. *)
Lemma test_watch_second_run_inherits_flag :
  let h := posix ["watch"] in
  let first := run h [Start TestWatch; Emit TestWatch (Error "1 test failed")] boot in
  let second := run h [Start TestWatch] first in
  let alone := run h [Start TestWatch] boot in
  halted first = None /\
  exitCode (vars second) = 1 /\
  exitCode (vars alone) = 0.
Proof. repeat split; reflexivity. Qed.

(* ===================================================================== *)
(** ** The run of ci *)
(* ===================================================================== *)

Section Ci.

Variable h : Host.

(** With the flag clear, a signal that reports no failure leaves it clear
    and the process idle. *)
Lemma ci_step_clean s o e :
  exitCode s = 0 -> ci_signal e = true -> reports_failure e = false ->
  idle (step h (mkProc s [] None o) e) /\
  exitCode (vars (step h (mkProc s [] None o) e)) = 0.
Proof.
  unfold idle. destruct s as [ec tl tf le]. cbn [exitCode]. intros ->.
  destruct le; split_event e; cbn; intros E1 E2; try discriminate;
    repeat split; reflexivity.
Qed.

(** With the flag clear, a signal that reports a failure ends the process
    with status 1, or sets the flag on a file whose stream has yet to end. *)
Lemma ci_step_failure s o e rest :
  exitCode s = 0 -> ci_signal e = true -> reports_failure e = true ->
  streams_closed (e :: rest) = true ->
  halted (step h (mkProc s [] None o) e) = Some 1 \/
  (idle (step h (mkProc s [] None o) e) /\
   exitCode (vars (step h (mkProc s [] None o) e)) = 1 /\
   existsb (is_end_of Lint) rest || existsb (is_end_of Felint) rest = true).
Proof.
  unfold idle. destruct s as [ec tl tf le]. cbn [exitCode]. intros ->.
  destruct le; split_event e; cbn; intros E1 E2 E3; try discriminate;
    try (left; reflexivity);
    right; apply andb_prop in E3 as [E3 _]; rewrite E3;
    repeat split; auto using orb_true_r.
Qed.

(** With the flag set, a signal ends the process with status 1, or is not
    the end of a lint stream and leaves the flag set. *)
Lemma ci_step_flagged s o e :
  exitCode s = 1 -> ci_signal e = true ->
  halted (step h (mkProc s [] None o) e) = Some 1 \/
  (idle (step h (mkProc s [] None o) e) /\
   exitCode (vars (step h (mkProc s [] None o) e)) = 1 /\
   is_end_of Lint e = false /\ is_end_of Felint e = false).
Proof.
  unfold idle. destruct s as [ec tl tf le]. cbn [exitCode]. intros ->.
  destruct le; split_event e; cbn; intros E1; try discriminate;
    try (left; reflexivity); right; repeat split; reflexivity.
Qed.

Lemma ci_flagged es :
  forall p, idle p -> exitCode (vars p) = 1 ->
    forallb ci_signal es = true ->
    existsb (is_end_of Lint) es || existsb (is_end_of Felint) es = true ->
    halted (run h es p) = Some 1.
Proof.
  induction es as [| e es IH]; intros p Hp Hf Hs He; [discriminate |].
  cbn in Hs. apply andb_prop in Hs as [Hs1 Hs2]. rewrite run_cons.
  idle_proc p Hp. cbn [vars] in Hf.
  destruct (ci_step_flagged s o e Hf Hs1) as [Hh | (Hi & Hc & E1 & E2)].
  - rewrite (run_halted h es _ 1 Hh). exact Hh.
  - apply IH; auto. cbn [existsb] in He. rewrite E1, E2 in He. exact He.
Qed.

Lemma ci_outcome es :
  forall p, idle p -> exitCode (vars p) = 0 ->
    forallb ci_signal es = true -> streams_closed es = true ->
    if existsb reports_failure es
    then halted (run h es p) = Some 1
    else idle (run h es p) /\ exitCode (vars (run h es p)) = 0.
Proof.
  induction es as [| e es IH]; intros p Hp Hf Hs Hc; [cbn; auto |].
  pose proof Hc as Hc'. cbn in Hs, Hc'.
  apply andb_prop in Hs as [Hs1 Hs2]. apply andb_prop in Hc' as [_ Hc2].
  rewrite run_cons. idle_proc p Hp. cbn [vars] in Hf. cbn [existsb].
  destruct (reports_failure e) eqn:Hr; cbn [orb].
  - destruct (ci_step_failure s o e es Hf Hs1 Hr Hc) as [Hh | (Hi & Hx & He)].
    + rewrite (run_halted h es _ 1 Hh). exact Hh.
    + apply ci_flagged; assumption.
  - destruct (ci_step_clean s o e Hf Hs1 Hr) as [Hi Hx]. apply IH; assumption.
Qed.

Lemma process_end_halted p c : halted p = Some c -> process_end h p = p.
Proof. unfold process_end, deliver. intros ->. destruct (exit_ticks h); reflexivity. Qed.

(** A process that ends for lack of work with the flag clear exits with
    status 0, whether or not the exit callback runs. *)
Lemma process_end_clear p :
  idle p -> exitCode (vars p) = 0 -> exit_status (process_end h p) = 0.
Proof.
  intros Hp Hx. idle_proc p Hp. destruct s as [ec tl tf le]. cbn in Hx. subst.
  unfold process_end. destruct (exit_ticks h); reflexivity.
Qed.

Lemma launch_ci : run h (launch "ci") boot = boot.
Proof. reflexivity. Qed.

End Ci.

(** C2 (as amended).  ci depends on exactly lessTest, lint, felint and
    test-cover.  A run of ci in which every lint and felint stream reaches
    its end exits with status 0 if and only if no file fails lint or felint
    and neither the test runner nor the coverage enforcer reports an error;
    errors of the less stream do not enter into it.  The status is the same
    whether or not the exit callback gets to run at the end of the
    process. *)
Theorem ci_exit_status (h : Host) (es : list event) :
  forallb ci_signal es = true ->
  streams_closed es = true ->
  dependencies "ci" = ["lessTest"; "lint"; "felint"; "test-cover"] /\
  (exit_status (ci_run h es) = 0 <-> existsb reports_failure es = false) /\
  exit_status (run h (launch "ci" ++ es) boot) = exit_status (ci_run h es).
Proof.
  intros Hs Hc. split; [reflexivity |].
  unfold ci_run. rewrite run_app, launch_ci.
  pose proof (ci_outcome h es boot boot_idle eq_refl Hs Hc) as H.
  destruct (existsb reports_failure es).
  - rewrite (process_end_halted h _ 1 H). unfold exit_status. rewrite H.
    split; [| reflexivity]. split; discriminate.
  - destruct H as [Hi Hx]. rewrite (process_end_clear h _ Hi Hx).
    destruct Hi as [Hl _]. unfold exit_status. rewrite Hl.
    split; [split |]; reflexivity.
Qed.

(** C2, counterexample.  In this run of ci the less stream reports an
    error, lessTest prints "Less errors found", nothing else fails, and the
    process exits with status 0, on either kind of Node. *)
Lemma ci_passes_with_less_error :
  let h := posix ["ci"] in
  let es := [Emit LessTest (Error "ParseError: missing closing brace");
             Emit LessTest End;
             Emit Lint (Data (clean "lib/a.js")); Emit Lint End;
             Emit Felint End;
             Emit TestCover InstrumentEnd; Emit TestCover End] in
  existsb reports_less_error es = true /\
  In (ConsoleLog [(nl ++ "✖ Less errors found" ++ nl)%string]) (out (ci_run h es)) /\
  existsb is_emit_exit (out (ci_run h es)) = false /\
  exit_status (ci_run h es) = 0 /\
  exit_status (ci_run (posix_ticking ["ci"]) es) = 0.
Proof.
  vm_compute. repeat split. auto 10.
Qed.

(* ===================================================================== *)
(** ** The option merge *)
(* ===================================================================== *)

Section MergeFacts.

Import Options.

Lemma get_assign_same k v props : get k (assign k v props) = v.
Proof.
  induction props as [| [k0 w] rest IH]; cbn.
  - rewrite String.eqb_refl. reflexivity.
  - destruct (String.eqb k0 k) eqn:E; cbn; rewrite E; auto.
Qed.

Lemma get_assign_other k k' v props :
  k <> k' -> get k' (assign k v props) = get k' props.
Proof.
  intros Hne. induction props as [| [k0 w] rest IH]; cbn.
  - destruct (String.eqb k k') eqn:E; [apply String.eqb_eq in E; contradiction | reflexivity].
  - destruct (String.eqb k0 k) eqn:E; cbn.
    + apply String.eqb_eq in E. subst k0.
      destruct (String.eqb k k') eqn:E'; [apply String.eqb_eq in E'; contradiction | reflexivity].
    + destruct (String.eqb k0 k'); auto.
Qed.

Lemma get_absent k props : has k props = false -> get k props = Undefined.
Proof.
  induction props as [| [k0 w] rest IH]; cbn; [reflexivity |].
  destruct (String.eqb k0 k); cbn; [discriminate | assumption].
Qed.

(** What the iteration leaves under each key. *)
Lemma ownTree_get each k :
  forall src obj,
    distinct_keys src = true ->
    get k (ownTree each src obj) =
    if has k src then each (get k obj) (get k src) else get k obj.
Proof.
  unfold ownTree. induction src as [| [k0 s0] rest IH]; intros obj Hd; [reflexivity |].
  cbn in Hd. apply andb_prop in Hd as [Hfresh Hd]. apply negb_true_iff in Hfresh.
  cbn [fold_left fst snd has get]. rewrite (IH _ Hd).
  destruct (String.eqb k0 k) eqn:E; cbn [orb].
  - apply String.eqb_eq in E. subst k0. rewrite Hfresh, get_assign_same. reflexivity.
  - assert (k0 <> k) by (intros ->; rewrite String.eqb_refl in E; discriminate).
    rewrite get_assign_other by assumption. reflexivity.
Qed.

Lemma wf_get k props : wf (Obj props) = true -> wf (get k props) = true.
Proof.
  cbn [wf]. intros H. apply andb_prop in H as [_ H].
  induction props as [| [k0 w] rest IH]; [reflexivity |].
  cbn in H. apply andb_prop in H as [Hw H]. cbn [get].
  destruct (String.eqb k0 k); auto.
Qed.

(** The equations of the merge under the customizer of the code. *)
Lemma merge_objects pa pb :
  treeMerge customizer (Obj pa) (Obj pb) = Obj (ownTree (treeMerge customizer) pb pa).
Proof. reflexivity. Qed.

Lemma merge_over_array a b :
  isArray a = true -> b <> Undefined -> treeMerge customizer a b = b.
Proof.
  destruct a; try discriminate. intros _ Hb. destruct b; try reflexivity. contradiction.
Qed.

Lemma merge_scalar a b : is_scalar b = true -> treeMerge customizer a b = b.
Proof. destruct b; try discriminate; destruct a; reflexivity. Qed.

Lemma merge_undefined a : treeMerge customizer a Undefined = a.
Proof. destruct a; reflexivity. Qed.

Lemma merge_get k pa pb :
  wf (Obj pb) = true ->
  get k (ownTree (treeMerge customizer) pb pa)
  = treeMerge customizer (get k pa) (get k pb).
Proof.
  intros H. cbn [wf] in H. apply andb_prop in H as [Hd _].
  rewrite ownTree_get by assumption.
  destruct (has k pb) eqn:E; [reflexivity |].
  rewrite (get_absent k pb E), merge_undefined. reflexivity.
Qed.

(** Merging and reading along a path commute, as long as both sides have
    objects on the way. *)
Lemma get_path_merge p :
  forall a b, wf b = true -> reachable p a b = true ->
    get_path p (treeMerge customizer a b) =
    treeMerge customizer (get_path p a) (get_path p b).
Proof.
  induction p as [| k p IH]; intros a b Hw Hr; [reflexivity |].
  cbn [reachable] in Hr. destruct a as [| | | | | | pa]; try discriminate.
  destruct b as [| | | | | | pb]; try discriminate.
  rewrite merge_objects. cbn [get_path]. rewrite merge_get by assumption.
  apply IH; [apply wf_get |]; assumption.
Qed.

(** A path that leads somewhere in both objects passes through objects
    only. *)
Lemma defined_reachable p :
  forall a b, get_path p a <> Undefined -> get_path p b <> Undefined ->
    reachable p a b = true.
Proof.
  induction p as [| k p IH]; intros a b Ha Hb; [reflexivity |].
  cbn in *. destruct a; try contradiction. destruct b; try contradiction. auto.
Qed.

Lemma has_assign k k' v props :
  has k' (assign k v props) = has k' props || String.eqb k k'.
Proof.
  induction props as [| [k0 w] rest IH]; cbn.
  - rewrite orb_false_r. reflexivity.
  - destruct (String.eqb k0 k) eqn:E; cbn.
    + apply String.eqb_eq in E. subst k0.
      destruct (String.eqb k k'); cbn; rewrite ?orb_true_r, ?orb_false_r; reflexivity.
    + rewrite IH. destruct (String.eqb k0 k'); reflexivity.
Qed.

Lemma distinct_assign k v props :
  distinct_keys props = true -> distinct_keys (assign k v props) = true.
Proof.
  induction props as [| [k0 w] rest IH]; intros H; [reflexivity |].
  cbn in H. apply andb_prop in H as [Hf Hd]. cbn [assign].
  destruct (String.eqb k0 k) eqn:E; cbn [distinct_keys].
  - rewrite Hf, Hd. reflexivity.
  - rewrite has_assign, (IH Hd). apply negb_true_iff in Hf.
    rewrite Hf, String.eqb_sym, E. reflexivity.
Qed.

(** Assigning under a new key appends. *)
Lemma assign_new k v props :
  has k props = false -> assign k v props = props ++ [(k, v)].
Proof.
  induction props as [| [k0 w] rest IH]; intros H; [reflexivity |].
  cbn in H. apply orb_false_elim in H as [E H]. cbn. rewrite E, (IH H). reflexivity.
Qed.

Lemma has_app k a b : has k (a ++ b) = has k a || has k b.
Proof.
  induction a as [| [k0 w] a IH]; cbn; [reflexivity |].
  rewrite IH, orb_assoc. reflexivity.
Qed.

(** Merging into nothing copies. *)
Lemma ownTree_copies each src : forall acc,
  distinct_keys src = true ->
  (forall k, has k src = true -> has k acc = false) ->
  ownTree each src acc = acc ++ map (fun kv => (fst kv, each Undefined (snd kv))) src.
Proof.
  unfold ownTree. induction src as [| [k0 s0] rest IH]; intros acc Hd Hfresh.
  - cbn. rewrite app_nil_r. reflexivity.
  - cbn in Hd. apply andb_prop in Hd as [Hf Hd]. apply negb_true_iff in Hf.
    assert (H0 : has k0 acc = false)
      by (apply Hfresh; cbn; rewrite String.eqb_refl; reflexivity).
    cbn [fold_left fst snd map]. rewrite (get_absent k0 acc H0), (assign_new _ _ _ H0).
    rewrite IH; [rewrite <- app_assoc; reflexivity | exact Hd |].
    intros k Hk. rewrite has_app. cbn.
    rewrite (Hfresh k) by (cbn; rewrite Hk, orb_true_r; reflexivity).
    destruct (String.eqb k0 k) eqn:E; [| reflexivity].
    apply String.eqb_eq in E. subst. congruence.
Qed.

Lemma copy_value : forall v, wf v = true -> treeMerge customizer Undefined v = v.
Proof.
  fix IH 1. intros [ | | b | n | s | items | props] Hw; try reflexivity.
  - cbn [treeMerge customizer isArray is_undefined]. f_equal.
    cbn [wf] in Hw. induction items as [| x items IHi]; [reflexivity |].
    cbn in Hw. apply andb_prop in Hw as [Hx Hi].
    cbn [eachTree hd tl]. rewrite (IH x Hx), (IHi Hi). reflexivity.
  - cbn [treeMerge customizer isArray is_undefined]. f_equal.
    cbn [wf] in Hw. apply andb_prop in Hw as [Hd Hv].
    rewrite ownTree_copies; [| exact Hd | reflexivity]. cbn [app].
    clear Hd. induction props as [| [k x] props IHp]; [reflexivity |].
    cbn in Hv. apply andb_prop in Hv as [Hx Hp].
    cbn [map fst snd]. rewrite (IH x Hx), (IHp Hp). reflexivity.
Qed.

(** A caller's value that meets no object is taken over whole. *)
Lemma tree_value_taken_whole a b :
  wf b = true -> b <> Undefined ->
  match a, b with Obj _, Obj _ => false | _, _ => true end = true ->
  treeMerge customizer a b = b.
Proof.
  intros Hw Hb Ho.
  destruct (isArray a) eqn:Ea; [apply merge_over_array; assumption |].
  assert (E : treeMerge customizer a b = treeMerge customizer Undefined b).
  { destruct b; [contradiction | ..]; destruct a; try reflexivity; discriminate. }
  rewrite E. apply copy_value, Hw.
Qed.

Lemma wf_get_path p : forall v, wf v = true -> wf (get_path p v) = true.
Proof.
  induction p as [| k p IH]; intros v Hw; [exact Hw |].
  destruct v; try reflexivity. cbn [get_path]. apply IH, wf_get, Hw.
Qed.

(** *** The stacks

    As long as the identities of the source are pairwise distinct and none
    is on the stacks, no lookup succeeds and the merge is the merge of the
    contents. *)

Lemma unseen_fresh l st : unseen l st = true -> fresh l st.
Proof.
  unfold unseen, fresh. intros H i Hi Hin.
  apply (proj1 (forallb_forall _ _) H) in Hi. apply negb_true_iff in Hi.
  assert (existsb (Nat.eqb i) (map fst st) = true) as E
    by (apply existsb_exists; exists i; split; [exact Hin | apply Nat.eqb_refl]).
  congruence.
Qed.

Lemma found_none id st : ~ In id (map fst st) -> found id st = None.
Proof.
  unfold found. induction st as [| [i v] st IH]; intros H; [reflexivity |].
  cbn [find fst]. destruct (Nat.eqb i id) eqn:E.
  - apply Nat.eqb_eq in E. subst. exfalso. apply H. left. reflexivity.
  - apply IH. intros Hin. apply H. right. exact Hin.
Qed.

Lemma distinct_ids_NoDup l : distinct_ids l = true -> NoDup l.
Proof.
  induction l as [| x l IH]; intros H; [constructor |].
  cbn in H. apply andb_prop in H as [Hx Hl]. constructor; [| auto].
  intros Hin. apply negb_true_iff in Hx.
  assert (existsb (Nat.eqb x) l = true) as E
    by (apply existsb_exists; exists x; split; [exact Hin | apply Nat.eqb_refl]).
  congruence.
Qed.

Lemma NoDup_app_disjoint (l1 l2 : list nat) :
  NoDup (l1 ++ l2) -> forall i, In i l2 -> ~ In i l1.
Proof.
  induction l1 as [| x l1 IH]; intros H i Hi; [intros [] |].
  cbn in H. apply NoDup_cons_iff in H as [Hx Hn]. intros [-> | Hin].
  - apply Hx, in_or_app. right. exact Hi.
  - exact (IH Hn i Hi Hin).
Qed.

Lemma fresh_after (l1 l2 : list nat) (st st1 : stack) :
  NoDup (l1 ++ l2) -> fresh (l1 ++ l2) st ->
  incl (map fst st1) (l1 ++ map fst st) ->
  fresh l2 st1.
Proof.
  intros Hn Hf Hi i Hin H1. apply Hi, in_app_or in H1 as [H1 | H1].
  - exact (NoDup_app_disjoint l1 l2 Hn i Hin H1).
  - apply (Hf i); [apply in_or_app; right; exact Hin | exact H1].
Qed.

Section Stacks.

Variable callback : jsval -> jsval -> jsval.

Lemma mergeValue_alias_free : forall b st a,
  NoDup (ids b) -> fresh (ids b) st ->
  fst (mergeValue callback st a b) = treeMerge callback a (content b) /\
  incl (map fst (snd (mergeValue callback st a b))) (ids b ++ map fst st).
Proof.
  fix IH 1. intros b st a Hn Hf.
  destruct b as [ | | bb | n | s | id items | id props];
    try (split; [reflexivity | apply incl_refl]).
  - cbn [ids] in Hn, Hf. apply NoDup_cons_iff in Hn as [Hid Hn].
    assert (Hf' : fresh (flat_map ids items) st)
      by (intros i Hi; apply Hf; right; exact Hi).
    cbn [mergeValue]. rewrite (found_none id st (Hf id (or_introl eq_refl))).
    cbn [content]. destruct (is_undefined (callback a (Arr (map content items)))) eqn:Eu.
    + assert (L : forall old st0,
                 NoDup (flat_map ids items) -> fresh (flat_map ids items) st0 ->
                 fst (forEach (mergeValue callback) items old st0)
                 = eachTree (treeMerge callback) (map content items) old /\
                 incl (map fst (snd (forEach (mergeValue callback) items old st0)))
                      (flat_map ids items ++ map fst st0)).
      { clear - IH. induction items as [| x items IHi]; intros old st0 Hn Hf.
        - split; [reflexivity | apply incl_refl].
        - cbn [flat_map] in Hn, Hf. cbn [forEach map eachTree flat_map].
          destruct (IH x st0 (hd Undefined old) (NoDup_app_remove_r _ _ Hn))
            as [E1 I1]; [intros i Hi; apply Hf, in_or_app; left; exact Hi |].
          destruct (mergeValue callback st0 (hd Undefined old) x) as [v st1].
          cbn [fst snd] in E1, I1.
          destruct (IHi (tl old) st1 (NoDup_app_remove_l _ _ Hn)
                      (fresh_after _ _ st0 st1 Hn Hf I1)) as [E2 I2].
          destruct (forEach (mergeValue callback) items (tl old) st1) as [vs st2].
          cbn [fst snd] in E2, I2 |- *. subst. split; [reflexivity |].
          intros i Hi. apply I2, in_app_or in Hi as [Hi | Hi].
          + apply in_or_app. left. apply in_or_app. right. exact Hi.
          + apply I1, in_app_or in Hi as [Hi | Hi].
            * apply in_or_app. left. apply in_or_app. left. exact Hi.
            * apply in_or_app. right. exact Hi. }
      destruct (L (match a with Arr old => old | _ => [] end) st Hn Hf') as [E I].
      destruct (forEach (mergeValue callback) items
                  (match a with Arr old => old | _ => [] end) st) as [merged st'].
      cbn [fst snd] in E, I |- *. cbn [treeMerge]. rewrite Eu, E. split; [reflexivity |].
      cbn [map fst ids]. intros i [<- | Hi]; [left; reflexivity |].
      right. exact (I i Hi).
    + cbn [fst snd treeMerge]. rewrite Eu. split; [reflexivity |].
      cbn [map fst ids]. intros i [<- | Hi]; [left; reflexivity |].
      right. apply in_or_app. right. exact Hi.
  - cbn [ids] in Hn, Hf. apply NoDup_cons_iff in Hn as [Hid Hn].
    assert (Hf' : fresh (flat_map (fun kv => ids (snd kv)) props) st)
      by (intros i Hi; apply Hf; right; exact Hi).
    cbn [mergeValue]. rewrite (found_none id st (Hf id (or_introl eq_refl))).
    cbn [content].
    destruct (is_undefined
                (callback a (Obj (map (fun kv => (fst kv, content (snd kv))) props))))
      eqn:Eu.
    + assert (L : forall obj st0,
                 NoDup (flat_map (fun kv => ids (snd kv)) props) ->
                 fresh (flat_map (fun kv => ids (snd kv)) props) st0 ->
                 fst (forOwn (mergeValue callback) props obj st0)
                 = ownTree (treeMerge callback)
                     (map (fun kv => (fst kv, content (snd kv))) props) obj /\
                 incl (map fst (snd (forOwn (mergeValue callback) props obj st0)))
                      (flat_map (fun kv => ids (snd kv)) props ++ map fst st0)).
      { clear - IH. unfold forOwn, ownTree.
        induction props as [| [k x] props IHp]; intros obj st0 Hn Hf.
        - split; [reflexivity | apply incl_refl].
        - cbn [flat_map snd] in Hn, Hf. cbn [fold_left map fst snd flat_map].
          destruct (IH x st0 (get k obj) (NoDup_app_remove_r _ _ Hn))
            as [E1 I1]; [intros i Hi; apply Hf, in_or_app; left; exact Hi |].
          destruct (mergeValue callback st0 (get k obj) x) as [v st1].
          cbn [fst snd] in E1, I1.
          destruct (IHp (assign k v obj) st1 (NoDup_app_remove_l _ _ Hn)
                      (fresh_after _ _ st0 st1 Hn Hf I1)) as [E2 I2].
          subst v. split; [exact E2 |].
          intros i Hi. apply I2, in_app_or in Hi as [Hi | Hi].
          + apply in_or_app. left. apply in_or_app. right. exact Hi.
          + apply I1, in_app_or in Hi as [Hi | Hi].
            * apply in_or_app. left. apply in_or_app. left. exact Hi.
            * apply in_or_app. right. exact Hi. }
      destruct (L (match a with Obj old => old | _ => [] end) st Hn Hf') as [E I].
      destruct (forOwn (mergeValue callback) props
                  (match a with Obj old => old | _ => [] end) st) as [merged st'].
      cbn [fst snd] in E, I |- *. cbn [treeMerge]. rewrite Eu, E. split; [reflexivity |].
      cbn [map fst ids]. intros i [<- | Hi]; [left; reflexivity |].
      right. exact (I i Hi).
    + cbn [fst snd treeMerge]. rewrite Eu. split; [reflexivity |].
      cbn [map fst ids]. intros i [<- | Hi]; [left; reflexivity |].
      right. apply in_or_app. right. exact Hi.
Qed.

End Stacks.

(** The merge of alias-free options is the merge of their contents. *)
Lemma merge_alias_free object oid props :
  alias_free (RObj oid props) = true ->
  Obj (merge object (RObj oid props))
  = treeMerge customizer (Obj object) (content (RObj oid props)).
Proof.
  intros Ha. apply distinct_ids_NoDup in Ha.
  destruct (mergeValue_alias_free customizer (RObj oid props) [] (Obj object) Ha)
    as [E _]; [intros i _ [] |].
  rewrite <- E. unfold merge, baseMerge. cbn [mergeValue found find customizer isArray
    is_undefined content].
  destruct (forOwn (mergeValue customizer) props object []) as [merged st'].
  reflexivity.
Qed.

(** Whatever the iteratee, the iteration keeps the keys and keeps them
    distinct. *)
Lemma forOwn_keeps each src : forall obj st,
  distinct_keys obj = true ->
  distinct_keys (fst (forOwn each src obj st)) = true /\
  (forall k, has k obj = true -> has k (fst (forOwn each src obj st)) = true).
Proof.
  unfold forOwn. induction src as [| [k0 s0] rest IH]; intros obj st Hd; [auto |].
  cbn [fold_left fst snd]. destruct (each st (get k0 obj) s0) as [v st1].
  destruct (IH _ st1 (distinct_assign k0 v obj Hd)) as [A B].
  split; [exact A |]. intros k Hk. apply B. rewrite has_assign, Hk. reflexivity.
Qed.

End MergeFacts.

(** C9 (as amended).  When no array or object occurs twice in the options
    of the caller, the merge of the defaults with them replaces arrays:
    wherever the default is an array and the caller supplies a value, the
    merged value is the value of the caller, whole.  Elsewhere the merge is
    deep and the caller wins: a field the caller leaves out keeps its
    default; a value of the caller that does not meet an object of the
    defaults (a scalar, an array, an object over a scalar, over an array or
    over nothing) is taken over whole; and where both have an object the
    result is an object whose fields follow the same rule. *)
Theorem merge_replaces_arrays
  (object : list (string * Options.jsval)) (oid : nat)
  (props : list (string * Options.jsref)) :
  Options.alias_free (Options.RObj oid props) = true ->
  Options.wf (Options.content (Options.RObj oid props)) = true ->
  let user := Options.content (Options.RObj oid props) in
  let merged := Options.Obj (Options.merge object (Options.RObj oid props)) in
  (forall p items b,
     Options.get_path p (Options.Obj object) = Options.Arr items ->
     Options.get_path p user = b ->
     b <> Options.Undefined ->
     Options.get_path p merged = b) /\
  (forall p,
     Options.reachable p (Options.Obj object) user = true ->
     let a := Options.get_path p (Options.Obj object) in
     let b := Options.get_path p user in
     (b = Options.Undefined -> Options.get_path p merged = a) /\
     (b <> Options.Undefined -> both_objects a b = false ->
        Options.get_path p merged = b) /\
     (both_objects a b = true ->
        exists fields, Options.get_path p merged = Options.Obj fields)).
Proof.
  intros Ha Hw user merged. subst merged. rewrite (merge_alias_free object oid props Ha).
  fold user in Hw |- *. split.
  - intros p items b Hpa Hb Hdef.
    rewrite get_path_merge; [| assumption |].
    + rewrite Hpa, Hb. apply merge_over_array; [reflexivity | assumption].
    + apply defined_reachable; [rewrite Hpa; discriminate | rewrite Hb; assumption].
  - intros p Hr a b. subst a b. rewrite get_path_merge by assumption.
    split; [| split].
    + intros ->. apply merge_undefined.
    + intros Hb Ho. apply tree_value_taken_whole; [apply wf_get_path, Hw | exact Hb |].
      destruct (Options.get_path p (Options.Obj object));
        destruct (Options.get_path p user); try reflexivity; discriminate.
    + intros Ho.
      destruct (Options.get_path p (Options.Obj object)) as [| | | | | | pa];
        try discriminate.
      destruct (Options.get_path p user) as [| | | | | | pb]; try discriminate.
      rewrite merge_objects. eexists. reflexivity.
Qed.

(** C9, counterexample.  The caller passes one object under two keys: as
    coverage thresholds, where the default is an object, and as the less
    paths, where the default is an array.  Under the second key the merge
    assigns what the first merge made of the object, not the object of the
    caller. *)
Lemma aliased_value_not_taken_over :
  let shared := Options.RObj 7 [("statements", Options.RNum 90)] in
  let options :=
    Options.RObj 1 [("coverageSettings", Options.RObj 2 [("thresholds", shared)]);
                    ("lessOpts", Options.RObj 3 [("paths", shared)])] in
  let merged := Options.Obj (Options.merge (Options.defaults "s" "c") options) in
  Options.get_path ["lessOpts"; "paths"] (Options.Obj (Options.defaults "s" "c"))
  = Options.Arr [] /\
  Options.get_path ["lessOpts"; "paths"] (Options.content options)
  = Options.Obj [("statements", Options.Num 90)] /\
  Options.get_path ["lessOpts"; "paths"] merged
  = Options.Obj [("statements", Options.Num 90); ("branches", Options.Num 70);
                 ("lines", Options.Num 80); ("functions", Options.Num 80)].
Proof. vm_compute. repeat split. Qed.

(* ===================================================================== *)
(** ** The theorems at concrete runs *)
(* ===================================================================== *)

(** A failing test in the test task. *)
Lemma tool_error_sets_its_flag_witness :
  idle boot /\
  exitCode (vars (step (posix ["test"]) boot (Emit Test (Error "1 test failed")))) = 1.
Proof.
  split; [split; reflexivity |].
  apply (tool_error_sets_its_flag (posix ["test"]) boot
           (Emit Test (Error "1 test failed")) (conj eq_refl eq_refl)).
  reflexivity.
Defined.

(** lint-watch starts again after a run that found two errors. *)
Lemma task_start_resets_witness :
  let h := posix ["watch-all"] in
  let p := run h [Start LintWatch;
                  Emit LintWatch (Data (dirty "lib/a.js" ["W033"; "W117"]));
                  Emit LintWatch End] boot in
  idle p /\ totalLintErrors (vars p) = 2 /\
  vars (step h p (Start LintWatch)) = initial.
Proof.
  cbv zeta. split; [split; reflexivity |]. split; [reflexivity |].
  apply (task_start_resets (posix ["watch-all"]) LintWatch
           (run (posix ["watch-all"])
                [Start LintWatch;
                 Emit LintWatch (Data (dirty "lib/a.js" ["W033"; "W117"]));
                 Emit LintWatch End] boot)
           [] (conj eq_refl eq_refl)).
  reflexivity.
Defined.

(** Three files, two pass and one has four violations. *)
Lemma lint_count_is_sum_over_failing_witness :
  let files := [clean "lib/a.js";
                dirty "lib/b.js" ["W033"; "W117"; "W098"; "E031"];
                clean "test/a.js"] in
  idle boot /\
  totalLintErrors (vars (run (posix ["lint"]) (Start Lint :: data Lint files) boot)) = 4.
Proof.
  cbv zeta. split; [split; reflexivity |].
  apply (lint_count_is_sum_over_failing (posix ["lint"]) Lint
           [clean "lib/a.js";
            dirty "lib/b.js" ["W033"; "W117"; "W098"; "E031"];
            clean "test/a.js"] boot (conj eq_refl eq_refl)).
  left. reflexivity.
Defined.

(** felint starts while lint has already counted four errors. *)
Lemma shared_reset_erases_other_categories_witness :
  let h := posix ["lint"; "felint"] in
  let es := [Start Lint;
             Emit Lint (Data (dirty "lib/b.js" ["W033"; "W117"; "W098"; "E031"]))] in
  totalLintErrors (vars (run h es boot)) = 4 /\
  vars (run h (es ++ [Start Felint]) boot) = initial.
Proof.
  cbv zeta. split; [reflexivity |].
  apply (shared_reset_erases_other_categories (posix ["lint"; "felint"]) Felint
           [Start Lint;
            Emit Lint (Data (dirty "lib/b.js" ["W033"; "W117"; "W098"; "E031"]))]);
    reflexivity.
Defined.

(** A run of ci in which lint and felint both find errors: lint ends first
    and the process exits once, with status 1. *)
Lemma escalation_exits_once_witness :
  let h := posix ["ci"] in
  let es := launch "ci" ++
            [Emit Lint (Data (dirty "lib/b.js" ["W033"]));
             Emit Felint (Data (dirty "content/c.js" ["W117"; "W098"]))] in
  let r := run h (es ++ Emit Lint End :: [Emit Felint End]) boot in
  halted r = Some 1 /\ exits (out r) = 1%nat.
Proof.
  cbv zeta.
  pose proof (escalation_exits_once (posix ["ci"])
                (launch "ci" ++
                 [Emit Lint (Data (dirty "lib/b.js" ["W033"]));
                  Emit Felint (Data (dirty "content/c.js" ["W117"; "W098"]))])
                (Emit Lint End) [Emit Felint End] eq_refl eq_refl) as H.
  cbv zeta in H. destruct H as (_ & _ & _ & Hh & Hx). split; assumption.
Defined.

(** A run of ci-watch in which lint-watch finds an error and a test fails. *)
Lemma watch_mode_never_exits_witness :
  let h := posix ["watch-all"] in
  let es := [Start WatchAll; Start LessTest; Start LintWatch; Start FelintWatch;
             Start TestCoverWatch;
             Emit LintWatch (Data (dirty "lib/b.js" ["W033"]));
             Emit LintWatch End; Emit FelintWatch End;
             Emit TestCoverWatch InstrumentEnd;
             Emit TestCoverWatch (Error "1 test failed")] in
  idle boot /\ forallb watch_event es = true /\ idle (run h es boot).
Proof.
  cbv zeta. split; [split; reflexivity |]. split; [reflexivity |].
  apply (watch_mode_never_exits (posix ["watch-all"])
           [Start WatchAll; Start LessTest; Start LintWatch; Start FelintWatch;
            Start TestCoverWatch;
            Emit LintWatch (Data (dirty "lib/b.js" ["W033"]));
            Emit LintWatch End; Emit FelintWatch End;
            Emit TestCoverWatch InstrumentEnd;
            Emit TestCoverWatch (Error "1 test failed")]
           boot (conj eq_refl eq_refl) eq_refl).
Defined.

(** lint-watch runs twice: the first run finds four errors, the second
    finds none and reports as it would on its own. *)
Lemma second_invocation_independent_witness :
  let h := posix ["watch-all"] in
  let es1 := [Emit LintWatch (Data (dirty "lib/b.js" ["W033"; "W117"; "W098"; "E031"]));
              Emit LintWatch End] in
  let es2 := [Emit LintWatch (Data (clean "lib/b.js")); Emit LintWatch End] in
  let first := run h (Start LintWatch :: es1) boot in
  let second := run h (Start LintWatch :: es2) first in
  totalLintErrors (vars first) = 4 /\
  vars second = vars (run h (Start LintWatch :: es2) boot).
Proof.
  cbv zeta. split; [reflexivity |].
  apply (second_invocation_independent (posix ["watch-all"]) LintWatch
           [Emit LintWatch (Data (dirty "lib/b.js" ["W033"; "W117"; "W098"; "E031"]));
            Emit LintWatch End]
           [Emit LintWatch (Data (clean "lib/b.js")); Emit LintWatch End]
           eq_refl eq_refl).
Defined.

(** A test fails in the test task; and a fresh process comes to its end. *)
Lemma exit_callback_runs_on_emit_only_witness :
  let h := posix ["test"] in
  let p := exec (testErrorHandler "1 test failed") boot in
  idle p /\ exit_ticks h = false /\
  out (deliver h process_emit_exit p)
  = out p ++ [EmitExit; ConsoleLog ["gulp 'test' failed"]; ProcessExit 1] /\
  exit_status (process_end h boot) = 0.
Proof.
  cbv zeta. split; [split; reflexivity |]. split; [reflexivity |]. split.
  - apply (exit_callback_runs_on_emit_only (posix ["test"])
             (exec (testErrorHandler "1 test failed") boot)
             (conj eq_refl eq_refl)).
  - apply (proj2 (exit_callback_runs_on_emit_only (posix ["test"]) boot
                    (conj eq_refl eq_refl)) eq_refl).
Defined.

(** A run of ci in which one file fails lint. *)
Lemma ci_exit_status_witness :
  let es := [Emit LessTest End;
             Emit Lint (Data (dirty "lib/b.js" ["W033"]));
             Emit Felint End; Emit Lint End] in
  forallb ci_signal es = true /\ streams_closed es = true /\
  exit_status (ci_run (posix ["ci"]) es) <> 0.
Proof.
  cbv zeta. split; [reflexivity |]. split; [reflexivity |].
  intros E.
  apply (ci_exit_status (posix ["ci"])
           [Emit LessTest End;
            Emit Lint (Data (dirty "lib/b.js" ["W033"]));
            Emit Felint End; Emit Lint End] eq_refl eq_refl) in E.
  discriminate E.
Defined.

(** The caller replaces the lint patterns and switches the size report on. *)
Lemma merge_replaces_arrays_witness :
  let props := [("paths", Options.RObj 2 [("lint", Options.rstrs 3 ["src/**/*.js"])]);
                ("showStreamSize", Options.RBool true)] in
  let merged := Options.Obj (Options.merge (Options.defaults "s" "c")
                                           (Options.RObj 1 props)) in
  Options.alias_free (Options.RObj 1 props) = true /\
  Options.wf (Options.content (Options.RObj 1 props)) = true /\
  Options.get_path ["paths"; "lint"] merged = Options.strs ["src/**/*.js"].
Proof.
  cbv zeta. split; [reflexivity |]. split; [reflexivity |].
  apply (proj1 (merge_replaces_arrays (Options.defaults "s" "c") 1
                  [("paths", Options.RObj 2 [("lint", Options.rstrs 3 ["src/**/*.js"])]);
                   ("showStreamSize", Options.RBool true)] eq_refl eq_refl)
               ["paths"; "lint"]
               (map Options.Str ["lib/**/*.js"; "test/**/*.js"; "!node_modules/**"; "!target/**"])
               (Options.strs ["src/**/*.js"]) eq_refl eq_refl).
  discriminate.
Defined.

(* ===================================================================== *)
(** ** Invariants of the variables and the verdicts of whole runs *)
(* ===================================================================== *)

Section Verdicts.

Variable h : Host.

Lemma step_consistent p e :
  idle p -> consistent (vars p) -> consistent (vars (step h p e)).
Proof.
  intros Hp. idle_proc p Hp. unfold consistent.
  destruct s as [ec tl tf le]. cbn [vars exitCode lessError totalLintErrors totalFelintErrors].
  intros ([-> | ->] & [-> | ->] & Hl & Hf & Hz);
    split_event e; cbn; repeat split; auto; try lia; try (intros; discriminate).
Qed.

Lemma run_consistent es :
  forall p, idle p \/ halted p <> None -> consistent (vars p) ->
    consistent (vars (run h es p)).
Proof.
  induction es as [| e es IH]; intros p Hp Hc; [exact Hc |].
  rewrite run_cons. destruct (halted p) as [c |] eqn:E.
  - rewrite (step_halted h p e c E). apply IH; [| exact Hc].
    right. rewrite E. discriminate.
  - destruct Hp as [Hp | Hp]; [| congruence]. apply IH.
    + destruct (halted (step h p e)) eqn:E'.
      * right. discriminate.
      * left. apply step_idle; assumption.
    + apply step_consistent; assumption.
Qed.

Lemma boot_consistent : consistent (vars boot).
Proof. unfold consistent. cbn. repeat split; auto; lia. Qed.

Lemma variables_consistent_aux es : consistent (vars (run h es boot)).
Proof.
  apply run_consistent; [left; exact boot_idle | exact boot_consistent].
Qed.

(** Between two resets nothing is taken back. *)
Lemma step_monotone p e :
  idle p -> keeps_state e = true ->
  totalLintErrors (vars p) <= totalLintErrors (vars (step h p e)) /\
  totalFelintErrors (vars p) <= totalFelintErrors (vars (step h p e)) /\
  (exitCode (vars p) = 1 -> exitCode (vars (step h p e)) = 1) /\
  (lessError (vars p) = 1 -> lessError (vars (step h p e)) = 1).
Proof.
  intros Hp. idle_proc p Hp. split_state s; split_event e; cbn; intros E;
    try discriminate; repeat split; auto; lia.
Qed.

(** A stream of files, from any variables. *)
Lemma any_failing_cons f files :
  any_failing (f :: files) = negb (success (jshint f)) || any_failing files.
Proof. reflexivity. Qed.

Lemma lint_stream_state t files :
  t = Lint \/ t = LintWatch ->
  forall s o,
    run h (data t files) (mkProc s [] None o) =
    mkProc (if any_failing files
            then mkRunState 1 (totalLintErrors s + violations files)
                   (totalFelintErrors s) (lessError s)
            else s) [] None o.
Proof.
  intros Ht. induction files as [| f files IH]; intros s o; [reflexivity |].
  cbn [data map]. rewrite run_cons, (step_lint_data h t f s o Ht).
  fold (data t files). rewrite IH, any_failing_cons, violations_cons.
  destruct (success (jshint f)); cbn [negb orb]; [rewrite Z.add_0_l; reflexivity |].
  cbn [totalLintErrors totalFelintErrors lessError].
  destruct (any_failing files) eqn:E.
  - rewrite Z.add_assoc. reflexivity.
  - assert (violations files = 0) as ->.
    { clear IH. unfold violations, failing. unfold any_failing in E.
      induction files as [| g files IHf]; [reflexivity |].
      cbn in E. apply orb_false_elim in E as [Eg Ef]. cbn. rewrite Eg. auto. }
    rewrite Z.add_0_r. reflexivity.
Qed.

Lemma felint_stream_state t files :
  t = Felint \/ t = FelintWatch ->
  forall s o,
    run h (data t files) (mkProc s [] None o) =
    mkProc (if any_failing files
            then mkRunState 1 (totalLintErrors s)
                   (totalFelintErrors s + violations files) (lessError s)
            else s) [] None o.
Proof.
  intros Ht. induction files as [| f files IH]; intros s o; [reflexivity |].
  cbn [data map]. rewrite run_cons, (step_felint_data h t f s o Ht).
  fold (data t files). rewrite IH, any_failing_cons, violations_cons.
  destruct (success (jshint f)); cbn [negb orb]; [rewrite Z.add_0_l; reflexivity |].
  cbn [totalLintErrors totalFelintErrors lessError].
  destruct (any_failing files) eqn:E.
  - rewrite Z.add_assoc. reflexivity.
  - assert (violations files = 0) as ->.
    { clear IH. unfold violations, failing. unfold any_failing in E.
      induction files as [| g files IHf]; [reflexivity |].
      cbn in E. apply orb_false_elim in E as [Eg Ef]. cbn. rewrite Eg. auto. }
    rewrite Z.add_0_r. reflexivity.
Qed.

(** The errors of a less stream: each is logged, the flag is set. *)
Lemma less_stream errs :
  forall s o,
    run h (less_errors errs) (mkProc s [] None o) =
    mkProc (match errs with
            | [] => s
            | _ => set_lessError 1 s
            end) [] None (o ++ map GutilLog errs).
Proof.
  induction errs as [| err errs IH]; intros s o.
  - cbn. rewrite app_nil_r. reflexivity.
  - cbn [less_errors map]. rewrite run_cons. fold (less_errors errs).
    change (step h (mkProc s [] None o) (Emit LessTest (Error err)))
      with (mkProc (set_lessError 1 s) [] None (o ++ [GutilLog err])).
    rewrite IH, <- app_assoc. destruct errs; reflexivity.
Qed.

End Verdicts.

(** X1.  Whatever events the process has handled since it was loaded,
    [exitCode] and [lessError] are 0 or 1, the two counters are not
    negative, and a counter is above zero only while [exitCode] is set. *)
Theorem variables_stay_consistent (h : Host) (es : list event) :
  consistent (vars (run h es boot)).
Proof. apply variables_consistent_aux. Qed.

(** X2.  As long as no function that calls [beforeEach] is started, the
    counters never decrease and a flag that is set stays set. *)
Theorem nothing_taken_back_between_resets (h : Host) (es : list event) (p : Proc) :
  idle p ->
  forallb keeps_state es = true ->
  totalLintErrors (vars p) <= totalLintErrors (vars (run h es p)) /\
  totalFelintErrors (vars p) <= totalFelintErrors (vars (run h es p)) /\
  (exitCode (vars p) = 1 -> exitCode (vars (run h es p)) = 1) /\
  (lessError (vars p) = 1 -> lessError (vars (run h es p)) = 1).
Proof.
  revert p. induction es as [| e es IH]; intros p Hp Hk.
  - cbn. repeat split; auto; lia.
  - cbn in Hk. apply andb_prop in Hk as [He Hes]. rewrite run_cons.
    destruct (step_monotone h p e Hp He) as (A & B & C & D).
    destruct (halted (step h p e)) as [c |] eqn:E.
    + rewrite (run_halted h es _ c E). auto.
    + destruct (IH _ (step_idle h p e Hp E) Hes) as (A' & B' & C' & D').
      repeat split; auto; lia.
Qed.

(** X3.  The verdict of lint reads the shared flag, not its own counter:
    when every linted file passes but another category reports a failure
    before the lint stream ends (a file failing felint-watch, an error of
    test-cover-watch or test-watch), lint-watch prints "0 errors" and beeps
    instead of "passed". *)
Theorem lint_verdict_follows_shared_flag (h : Host) (files : list File)
  (e : event) (p : Proc) :
  idle p ->
  any_failing files = false ->
  watch_event e = true ->
  reports_failure e = true ->
  writes_lint e = false ->
  out (run h (Start LintWatch :: data LintWatch files ++ [e; Emit LintWatch End]) p)
  = out p ++ emitted h initial e ++ [errors_message h 0; Beep].
Proof.
  intros Hp Hf Hw Hr Hl. idle_proc p Hp.
  rewrite run_cons, (step_start_resets h LintWatch s o eq_refl), run_app.
  rewrite (lint_stream_state h LintWatch files (or_intror eq_refl)), Hf.
  split_event e; try discriminate; cbn; rewrite <- ?app_assoc; reflexivity.
Qed.

(** X4.  With the variables as any events since loading have left them,
    the ['end'] of a lint-watch (felint-watch) stream prints either "passed", and then the counter of the category is zero, or
    the counter followed by "errors" and a beep, and then [exitCode] is 1. *)
Theorem passed_is_printed_only_at_zero (h : Host) (es : list event) :
  let s := vars (run h es boot) in
  (emitted h s (Emit LintWatch End) = [passed_message h "lint"] /\
   totalLintErrors s = 0
   \/
   emitted h s (Emit LintWatch End) = [errors_message h (totalLintErrors s); Beep] /\
   exitCode s = 1) /\
  (emitted h s (Emit FelintWatch End) = [passed_message h "felint"] /\
   totalFelintErrors s = 0
   \/
   emitted h s (Emit FelintWatch End) = [errors_message h (totalFelintErrors s); Beep] /\
   exitCode s = 1).
Proof.
  intros s. pose proof (variables_consistent_aux h es) as H. fold s in H.
  destruct s as [ec tl tf le]. unfold consistent in H. cbn in H.
  destruct H as ([-> | ->] & _ & _ & _ & Hz).
  - destruct (Hz eq_refl) as [-> ->]. split; left; split; reflexivity.
  - split; right; split; reflexivity.
Qed.

(** X5.  In a run of lessTest on its own every error of the less stream
    is logged, in order; [lessError] becomes 1 however many there are,
    [exitCode] stays 0 and the process goes on.  Up to there no verdict is
    printed, and none ever is when the stream delivers no ['end'] (a pipe
    cut at the error).  If ['end'] is delivered, [lessOnEnd] prints one
    verdict: "passed" when there was no error, otherwise "Less errors found"
    with a beep. *)
Theorem less_run_verdict (h : Host) (errs : list string) (p : Proc) :
  idle p ->
  (let r := run h (Start LessTest :: less_errors errs) p in
   out r = out p ++ map GutilLog errs /\
   lessError (vars r) = match errs with [] => 0 | _ => 1 end /\
   exitCode (vars r) = 0 /\
   idle r) /\
  (let r := run h (Start LessTest :: less_errors errs ++ [Emit LessTest End]) p in
   out r = out p ++ map GutilLog errs
             ++ match errs with
                | [] => [passed_message h "lessTest"]
                | _ => [less_errors_message h; Beep]
                end /\
   lessError (vars r) = match errs with [] => 0 | _ => 1 end /\
   exitCode (vars r) = 0 /\
   idle r).
Proof.
  intros Hp. idle_proc p Hp. split; cbv zeta.
  - rewrite run_cons, (step_start_resets h LessTest s o eq_refl), less_stream.
    unfold idle. destruct errs; cbn; repeat split; reflexivity.
  - rewrite run_cons, (step_start_resets h LessTest s o eq_refl), run_app, less_stream.
    unfold idle. destruct errs; cbn; rewrite <- ?app_assoc; repeat split; reflexivity.
Qed.

Lemma step_exit_codes (h : Host) p e :
  idle p -> flag_ok p -> exit_codes_ok (emitted h (vars p) e) = true.
Proof.
  intros Hp. idle_proc p Hp. unfold flag_ok. destruct s as [ec tl tf le].
  cbn [vars exitCode]. intros [-> | ->]; destruct le; split_event e; reflexivity.
Qed.

Lemma run_exit_codes (h : Host) es :
  forall p, idle p -> flag_ok p -> exit_codes_ok (out p) = true ->
    exit_codes_ok (out (run h es p)) = true.
Proof.
  induction es as [| e es IH]; intros p Hp Hf Hc; [exact Hc |].
  rewrite run_cons.
  assert (Hs : exit_codes_ok (out (step h p e)) = true).
  { pose proof (step_exit_codes h p e Hp Hf) as E. idle_proc p Hp.
    rewrite step_out. unfold exit_codes_ok in *. rewrite forallb_app.
    cbn [out vars] in Hc, E. rewrite Hc, E. reflexivity. }
  destruct (halted (step h p e)) as [c |] eqn:E.
  - rewrite (run_halted h es _ c E). exact Hs.
  - apply IH; [apply step_idle | apply step_flag_ok |]; assumption.
Qed.

(** X6.  Whatever the listeners of index.js have handled, every call of
    [process.exit] the code has made by the end of the process was made with
    0 or 1, the value of [exitCode]: the code never asks for another exit
    status.  (A process ended by an exception, of a tool or of the callback
    of the plato task, ends without such a call.) *)
Theorem process_exit_called_with_flag (h : Host) (es : list event) :
  exit_codes_ok (out (process_end h (run h es boot))) = true.
Proof.
  pose proof (run_exit_codes h es boot boot_idle boot_flag_ok eq_refl) as Hc.
  destruct (halted (run h es boot)) as [c |] eqn:E.
  - rewrite (process_end_halted h _ c E). exact Hc.
  - destruct (reachable_idle h es E) as [Hi Hf].
    destruct (run h es boot) as [s tk hl o]. destruct Hi as [H1 H2].
    cbn in H1, H2. subst. unfold flag_ok in Hf. destruct s as [ec tl tf le].
    cbn [vars exitCode] in Hf. cbn [out] in Hc. unfold process_end.
    destruct (exit_ticks h); [| exact Hc].
    unfold exit_codes_ok in *. cbn. rewrite <- app_assoc, forallb_app, Hc.
    destruct Hf as [-> | ->]; reflexivity.
Qed.

(** X7.  A run of lint-watch (felint-watch) on its own prints exactly one
    verdict when its stream ends: the sum of the violations of the failing
    files, "errors" and a beep when some file failed, "passed" otherwise; the
    process goes on. *)
Theorem lint_watch_run_verdict (h : Host) (files : list File) (p : Proc) :
  idle p ->
  (let r := run h (Start LintWatch :: data LintWatch files ++ [Emit LintWatch End]) p in
   out r = out p ++ (if any_failing files
                     then [errors_message h (violations files); Beep]
                     else [passed_message h "lint"]) /\
   idle r) /\
  (let r := run h (Start FelintWatch :: data FelintWatch files ++ [Emit FelintWatch End]) p in
   out r = out p ++ (if any_failing files
                     then [errors_message h (violations files); Beep]
                     else [passed_message h "felint"]) /\
   idle r).
Proof.
  intros Hp. idle_proc p Hp. unfold idle. split; cbv zeta.
  - rewrite run_cons, (step_start_resets h LintWatch s o eq_refl), run_app.
    rewrite (lint_stream_state h LintWatch files (or_intror eq_refl)).
    destruct (any_failing files); cbn; rewrite <- ?app_assoc; repeat split; reflexivity.
  - rewrite run_cons, (step_start_resets h FelintWatch s o eq_refl), run_app.
    rewrite (felint_stream_state h FelintWatch files (or_intror eq_refl)).
    destruct (any_failing files); cbn; rewrite <- ?app_assoc; repeat split; reflexivity.
Qed.

(** X8.  A run of lint (felint) on its own, from a fresh process, exits
    with status 1 when some file failed, and with status 0 otherwise; a file
    that fails with an empty list of results counts as a failure. *)
Theorem lint_run_exit_status (h : Host) (files : list File) :
  exit_status (process_end h
     (run h (Start Lint :: data Lint files ++ [Emit Lint End]) boot))
  = (if any_failing files then 1 else 0) /\
  exit_status (process_end h
     (run h (Start Felint :: data Felint files ++ [Emit Felint End]) boot))
  = (if any_failing files then 1 else 0).
Proof.
  unfold boot. split.
  - rewrite run_cons, (step_start_resets h Lint initial [] eq_refl), run_app.
    rewrite (lint_stream_state h Lint files (or_introl eq_refl)).
    unfold process_end.
    destruct (any_failing files); destruct (exit_ticks h); reflexivity.
  - rewrite run_cons, (step_start_resets h Felint initial [] eq_refl), run_app.
    rewrite (felint_stream_state h Felint files (or_introl eq_refl)).
    unfold process_end.
    destruct (any_failing files); destruct (exit_ticks h); reflexivity.
Qed.

(** X9.  A reset in the middle of a run hides its failures: when another
    function that calls [beforeEach] is started after the files of lint have
    been counted and before the lint stream ends, lint prints "passed" and
    does not end the process, whatever the files were. *)
Theorem late_reset_hides_failures (h : Host) (files : list File) (t' : task)
  (p : Proc) :
  idle p ->
  resets t' = true ->
  let r := run h (Start Lint :: data Lint files ++ [Start t'; Emit Lint End]) p in
  out r = out p ++ [passed_message h "lint"] /\ idle r.
Proof.
  intros Hp Ht r. subst r. idle_proc p Hp.
  rewrite run_cons, (step_start_resets h Lint s o eq_refl), run_app.
  rewrite (lint_stream_state h Lint files (or_introl eq_refl)).
  rewrite run_cons, (step_start_resets h t' _ o Ht). unfold idle.
  repeat split; reflexivity.
Qed.

(** X10.  A listener assigns only to the variables of its own category:
    apart from [beforeEach], [totalLintErrors] changes only at a failing file
    of lint or lint-watch, [totalFelintErrors] only at a failing file of
    felint or felint-watch, [lessError] only at an error of the less stream,
    and [exitCode] only at a failing file or an error of a test stream. *)
Theorem listeners_write_their_own_variables (h : Host) (p : Proc) (e : event) :
  idle p ->
  keeps_state e = true ->
  (writes_lint e = false ->
     totalLintErrors (vars (step h p e)) = totalLintErrors (vars p)) /\
  (writes_felint e = false ->
     totalFelintErrors (vars (step h p e)) = totalFelintErrors (vars p)) /\
  (reports_less_error e = false ->
     lessError (vars (step h p e)) = lessError (vars p)) /\
  (reports_failure e = false ->
     exitCode (vars (step h p e)) = exitCode (vars p)).
Proof.
  intros Hp. idle_proc p Hp. split_state s; split_event e; cbn; intros E;
    try discriminate; repeat split; intros E'; try discriminate; reflexivity.
Qed.

(* ===================================================================== *)
(** ** The comment removal *)
(* ===================================================================== *)

Section PlatoFacts.

Import Plato.

Lemma slash_differs c : negb (c =? slash)%N = true -> (slash =? c)%N = false.
Proof. rewrite N.eqb_sym. apply negb_true_iff. Qed.

Lemma terminator_not_dot t : is_line_terminator t = true -> dot t = false.
Proof. unfold dot. intros ->. reflexivity. Qed.

Lemma terminator_plain t :
  is_line_terminator t = true -> (slash =? t)%N = false /\ (star =? t)%N = false.
Proof.
  unfold is_line_terminator. intros H.
  repeat (apply orb_prop in H as [H | H]); apply N.eqb_eq in H; subst; split; reflexivity.
Qed.

Lemma nl_or_cr_terminator t : nl_or_cr t = true -> is_line_terminator t = true.
Proof.
  unfold nl_or_cr, is_line_terminator. intros H.
  apply orb_prop in H as [-> | ->]; rewrite ?orb_true_r; reflexivity.
Qed.

Lemma after_prefix_app l : forall s rest, after_prefix l s = Some rest -> s = l ++ rest.
Proof.
  induction l as [| a l IH]; intros s rest H; cbn in H.
  - injection H as ->. reflexivity.
  - destruct s as [| c s]; [discriminate |].
    destruct (a =? c)%N eqn:E; [| discriminate].
    apply N.eqb_eq in E. subst c. cbn. f_equal. auto.
Qed.

(** How the replacement proceeds. *)
Lemma remove_all_skip r n : forall s, remove_all r n s = remove_all r 0 (skipn n s).
Proof.
  induction n as [| n IH]; intros s; [reflexivity |].
  destruct s as [| c s]; [reflexivity |]. cbn [remove_all skipn]. apply IH.
Qed.

Lemma strip_keep c s :
  match_at commentRemovalRegex (c :: s) = None ->
  strip_comments (c :: s) = c :: strip_comments s.
Proof. unfold strip_comments. cbn [remove_all]. intros ->. reflexivity. Qed.

Lemma strip_drop m rest :
  m <> [] ->
  match_at commentRemovalRegex (m ++ rest) = Some rest ->
  strip_comments (m ++ rest) = strip_comments rest.
Proof.
  unfold strip_comments. destruct m as [| c m]; [contradiction |]. intros _ H.
  cbn [app remove_all]. cbn [app] in H. rewrite H.
  replace (List.length (c :: m ++ rest) - List.length rest)%nat with (S (List.length m))
    by (cbn [List.length]; rewrite length_app; lia).
  rewrite remove_all_skip, skipn_app, skipn_all, Nat.sub_diag. reflexivity.
Qed.

(** Nothing matches where there is no slash. *)
Lemma no_match_without_slash c s :
  (slash =? c)%N = false -> match_at commentRemovalRegex (c :: s) = None.
Proof.
  intros E. unfold match_at, commentRemovalRegex. cbn [matcher after_prefix].
  rewrite E. reflexivity.
Qed.

Lemma strip_plain pre : forall s,
  no_slash pre = true -> strip_comments (pre ++ s) = pre ++ strip_comments s.
Proof.
  induction pre as [| c pre IH]; intros s H; [reflexivity |].
  cbn [no_slash forallb] in H. apply andb_prop in H as [Hc Hpre]. cbn [app].
  rewrite strip_keep by (apply no_match_without_slash, slash_differs, Hc).
  f_equal. auto.
Qed.

(** The lazy search for the closing: found behind a body without slash,
    not found before a line terminator or where no slash is left. *)
Lemma lazy_finds_closing body : forall rest,
  one_line body = true -> no_slash body = true ->
  lazy dot closing (body ++ star :: slash :: rest) = Some rest.
Proof.
  induction body as [| c body IH]; intros rest Hl Hs; [reflexivity |].
  cbn [one_line no_slash forallb] in Hl, Hs.
  apply andb_prop in Hl as [Hc Hl]. apply andb_prop in Hs as [Hc' Hs].
  cbn [app lazy].
  assert (E : closing (c :: body ++ star :: slash :: rest) = None).
  { unfold closing. cbn [matcher after_prefix]. destruct (star =? c)%N; [| reflexivity].
    destruct body as [| d body]; [reflexivity |]. cbn [app].
    cbn [no_slash forallb] in Hs. apply andb_prop in Hs as [Hd _].
    rewrite (slash_differs d Hd). reflexivity. }
  rewrite E, Hc. apply IH; assumption.
Qed.

Lemma closing_needs_slash s : no_slash s = true -> closing s = None.
Proof.
  unfold closing. destruct s as [| c [| d s]]; intros H;
    cbn [matcher after_prefix]; cbn [no_slash forallb] in H.
  - reflexivity.
  - destruct (star =? c)%N; reflexivity.
  - apply andb_prop in H as [_ H]. apply andb_prop in H as [Hd _].
    rewrite (slash_differs d Hd). destruct (star =? c)%N; reflexivity.
Qed.

Lemma lazy_without_slash s : no_slash s = true -> lazy dot closing s = None.
Proof.
  induction s as [| c s IH]; intros H.
  - reflexivity.
  - cbn [lazy]. rewrite (closing_needs_slash _ H). cbn [no_slash forallb] in H.
    apply andb_prop in H as [_ H]. destruct (dot c); auto.
Qed.

Lemma closing_before_terminator a t rest :
  no_slash a = true -> is_line_terminator t = true -> closing (a ++ t :: rest) = None.
Proof.
  intros Ha Ht. destruct (terminator_plain t Ht) as [E1 E2].
  unfold closing. destruct a as [| c [| d a]];
    cbn [app matcher after_prefix]; cbn [no_slash forallb] in Ha.
  - rewrite E2. reflexivity.
  - rewrite E1. destruct (star =? c)%N; reflexivity.
  - apply andb_prop in Ha as [_ Ha]. apply andb_prop in Ha as [Hd _].
    rewrite (slash_differs d Hd). destruct (star =? c)%N; reflexivity.
Qed.

Lemma lazy_stops_at_terminator a : forall t rest,
  no_slash a = true -> is_line_terminator t = true ->
  lazy dot closing (a ++ t :: rest) = None.
Proof.
  induction a as [| c a IH]; intros t rest Ha Ht.
  - pose proof (closing_before_terminator [] t rest eq_refl Ht) as E.
    cbn [app] in E |- *. cbn [lazy]. rewrite E, (terminator_not_dot t Ht). reflexivity.
  - pose proof (closing_before_terminator (c :: a) t rest Ha Ht) as E.
    cbn [app] in E |- *. cbn [lazy]. rewrite E.
    cbn [no_slash forallb] in Ha. apply andb_prop in Ha as [_ Ha]. destruct (dot c); auto.
Qed.

(** The greedy run of a line comment. *)
Lemma greedy_takes_line body : forall t rest,
  one_line body = true -> nl_or_cr t = true ->
  greedy dot line_end (body ++ t :: rest) = Some (t :: rest).
Proof.
  induction body as [| c body IH]; intros t rest Hl Ht.
  - cbn [app greedy].
    rewrite (terminator_not_dot t (nl_or_cr_terminator t Ht)).
    unfold line_end. cbn [matcher]. rewrite Ht. reflexivity.
  - cbn [one_line forallb] in Hl. apply andb_prop in Hl as [Hc Hl]. cbn [app greedy].
    rewrite Hc, IH by assumption. reflexivity.
Qed.

Lemma line_end_fails_on_dot c s : dot c = true -> line_end (c :: s) = None.
Proof.
  unfold line_end, dot, is_line_terminator, nl_or_cr. cbn [matcher]. intros H.
  apply negb_true_iff in H. apply orb_false_elim in H as [H _].
  apply orb_false_elim in H as [H _]. rewrite H. reflexivity.
Qed.

Lemma greedy_needs_line_end body : forall tail,
  one_line body = true ->
  match tail with
  | [] => true
  | t :: _ => is_line_terminator t && negb (nl_or_cr t)
  end = true ->
  greedy dot line_end (body ++ tail) = None.
Proof.
  induction body as [| c body IH]; intros tail Hl Ht.
  - cbn [app]. destruct tail as [| t tail]; [reflexivity |].
    apply andb_prop in Ht as [Ht1 Ht2]. apply negb_true_iff in Ht2.
    cbn [greedy]. rewrite (terminator_not_dot t Ht1).
    unfold line_end. cbn [matcher]. rewrite Ht2. reflexivity.
  - cbn [one_line forallb] in Hl. apply andb_prop in Hl as [Hc Hl]. cbn [app greedy].
    rewrite Hc, IH by assumption. apply line_end_fails_on_dot, Hc.
Qed.

End PlatoFacts.

Section PlatoMatches.

Import Plato.

Ltac name_continuations :=
  repeat match goal with
         | |- context [lazy dot ?k ?s] =>
             progress change (lazy dot k s) with (lazy dot closing s)
         | |- context [greedy dot ?k ?s] =>
             progress change (greedy dot k s) with (greedy dot line_end s)
         end.

Lemma match_block b body rest :
  one_line (b :: body) = true -> no_slash (b :: body) = true ->
  match_at commentRemovalRegex ([slash; star] ++ (b :: body) ++ [star; slash] ++ rest)
  = Some rest.
Proof.
  intros Hl Hs. cbn [one_line no_slash forallb] in Hl, Hs.
  apply andb_prop in Hl as [Hb Hl]. apply andb_prop in Hs as [_ Hs].
  unfold match_at, commentRemovalRegex. cbn [matcher after_prefix app].
  rewrite !N.eqb_refl, Hb. name_continuations.
  rewrite (lazy_finds_closing body rest Hl Hs). reflexivity.
Qed.

Lemma match_line body t rest :
  one_line body = true -> nl_or_cr t = true ->
  match_at commentRemovalRegex ([slash; slash] ++ body ++ t :: rest) = Some (t :: rest).
Proof.
  intros Hl Ht. unfold match_at, commentRemovalRegex. cbn [matcher after_prefix app].
  rewrite !N.eqb_refl. change ((star =? slash)%N) with false. cbn iota.
  name_continuations. apply greedy_takes_line; assumption.
Qed.

(** Where a run without slash ends the input or meets a line terminator,
    no closing is found. *)
Lemma lazy_finds_nothing body tail :
  no_slash body = true ->
  match tail with
  | [] => true
  | t :: _ => is_line_terminator t
  end = true ->
  lazy dot closing (body ++ tail) = None.
Proof.
  intros Hs Ht. destruct tail as [| t tail].
  - rewrite app_nil_r. apply lazy_without_slash, Hs.
  - apply lazy_stops_at_terminator; assumption.
Qed.

Lemma plus_finds_nothing body tail :
  no_slash body = true ->
  match tail with
  | [] => true
  | t :: _ => is_line_terminator t
  end = true ->
  matcher (PlusLazy dot) (body ++ tail) closing = None.
Proof.
  intros Hs Ht. destruct body as [| d body]; cbn [app matcher].
  - destruct tail as [| t tail]; [reflexivity |].
    rewrite (terminator_not_dot t Ht). reflexivity.
  - cbn [no_slash forallb] in Hs. apply andb_prop in Hs as [_ Hs].
    rewrite (lazy_finds_nothing body tail Hs Ht). destruct (dot d); reflexivity.
Qed.

(** A slash followed by such a run starts no match. *)
Lemma no_match_lone_slash body tail :
  no_slash body = true ->
  match tail with
  | [] => true
  | t :: _ => is_line_terminator t
  end = true ->
  match_at commentRemovalRegex (slash :: body ++ tail) = None.
Proof.
  intros Hs Ht. unfold match_at, commentRemovalRegex.
  cbn [matcher]. cbn [after_prefix]. rewrite !N.eqb_refl.
  destruct body as [| c body]; cbn [app].
  - destruct tail as [| t tail]; [reflexivity |].
    destruct (terminator_plain t Ht) as [E1 E2]. rewrite E1, E2. reflexivity.
  - cbn [no_slash forallb] in Hs. apply andb_prop in Hs as [Hc Hs].
    rewrite (slash_differs c Hc).
    destruct (star =? c)%N; [| reflexivity].
    pose proof (plus_finds_nothing body tail Hs Ht) as E.
    unfold closing in E. cbn [matcher after_prefix] in E |- *. rewrite E. reflexivity.
Qed.

(** An opening that is followed by a line terminator before any slash
    starts no match, and neither does one followed at once by its closing
    when no slash comes after. *)
Lemma no_match_open_block a t rest :
  no_slash a = true -> is_line_terminator t = true ->
  match_at commentRemovalRegex ([slash; star] ++ a ++ t :: rest) = None.
Proof.
  intros Ha Ht. unfold match_at, commentRemovalRegex.
  cbn [matcher]. cbn [after_prefix app]. rewrite !N.eqb_refl.
  change ((slash =? star)%N) with false. cbn iota.
  pose proof (plus_finds_nothing a (t :: rest) Ha Ht) as E.
  unfold closing in E. cbn [matcher after_prefix] in E |- *. rewrite E. reflexivity.
Qed.

Lemma no_match_empty_block rest :
  no_slash rest = true ->
  match_at commentRemovalRegex ([slash; star; star; slash] ++ rest) = None.
Proof.
  intros Hr. unfold match_at, commentRemovalRegex.
  cbn [matcher]. cbn [after_prefix app]. rewrite !N.eqb_refl.
  change ((slash =? star)%N) with false. change (dot star) with true. cbn iota.
  name_continuations. cbn [lazy].
  change (closing (slash :: rest)) with (@None text). change (dot slash) with true.
  cbn iota. rewrite (lazy_without_slash rest Hr). reflexivity.
Qed.

(** What a match covers: at least one character, none of them a line
    terminator. *)
Lemma lazy_covers cls k : forall s r,
  lazy cls k s = Some r ->
  exists m s2, s = m ++ s2 /\ forallb cls m = true /\ k s2 = Some r.
Proof.
  induction s as [| c s IH]; intros r H; cbn [lazy] in H.
  - destruct (k []) eqn:E; [| discriminate]. exists [], [].
    repeat split; congruence.
  - destruct (k (c :: s)) eqn:E.
    + exists [], (c :: s). repeat split; congruence.
    + destruct (cls c) eqn:Ec; [| discriminate].
      destruct (IH r H) as (m & s2 & -> & Hm & Hk).
      exists (c :: m), s2. cbn. rewrite Ec. auto.
Qed.

Lemma greedy_covers cls k : forall s r,
  greedy cls k s = Some r ->
  exists m s2, s = m ++ s2 /\ forallb cls m = true /\ k s2 = Some r.
Proof.
  induction s as [| c s IH]; intros r H; cbn [greedy] in H.
  - exists [], []. repeat split; congruence.
  - destruct (cls c) eqn:Ec.
    + destruct (greedy cls k s) eqn:E.
      * destruct (IH _ H) as (m & s2 & -> & Hm & Hk).
        exists (c :: m), s2. cbn. rewrite Ec. auto.
      * exists [], (c :: s). repeat split; congruence.
    + exists [], (c :: s). repeat split; congruence.
Qed.

Lemma match_covers s rest :
  match_at commentRemovalRegex s = Some rest ->
  exists m, s = m ++ rest /\ m <> [] /\ one_line m = true.
Proof.
  unfold match_at, commentRemovalRegex. cbn [matcher]. intros H.
  destruct (after_prefix [slash; star] s) as [s1 |] eqn:E1.
  - apply after_prefix_app in E1. subst s.
    destruct s1 as [| c s1]; [| destruct (dot c) eqn:Ec].
    + cbn in H. discriminate.
    + destruct (lazy dot (fun rest0 => match after_prefix [star; slash] rest0 with
                                        | Some rest1 => Some rest1
                                        | None => None
                                        end) s1) as [r |] eqn:E2.
      * injection H as ->. apply lazy_covers in E2 as (m & s2 & -> & Hm & Hk).
        destruct (after_prefix [star; slash] s2) as [r |] eqn:E3; [| discriminate].
        injection Hk as ->. apply after_prefix_app in E3. subst s2.
        exists ([slash; star] ++ c :: m ++ [star; slash]). split; [| split].
        -- cbn. rewrite <- app_assoc. reflexivity.
        -- discriminate.
        -- unfold one_line. cbn [app forallb]. rewrite Ec, forallb_app, Hm. reflexivity.
      * cbn in H. discriminate.
    + cbn in H. discriminate.
  - destruct (after_prefix [slash; slash] s) as [s1 |] eqn:E2; [| discriminate].
    apply after_prefix_app in E2. subst s.
    apply greedy_covers in H as (m & s2 & -> & Hm & Hk).
    destruct s2 as [| t s2]; [discriminate |].
    destruct (nl_or_cr t); [| discriminate]. injection Hk as <-.
    exists ([slash; slash] ++ m). split; [| split].
    + cbn. reflexivity.
    + discriminate.
    + unfold one_line. cbn [app forallb]. exact Hm.
Qed.

Lemma no_match_unterminated body tail :
  one_line body = true ->
  match tail with
  | [] => true
  | t :: _ => is_line_terminator t && negb (nl_or_cr t)
  end = true ->
  match_at commentRemovalRegex ([slash; slash] ++ body ++ tail) = None.
Proof.
  intros Hl Ht. unfold match_at, commentRemovalRegex. cbn [matcher after_prefix app].
  rewrite !N.eqb_refl. change ((star =? slash)%N) with false. cbn iota.
  name_continuations. apply greedy_needs_line_end; assumption.
Qed.

End PlatoMatches.

Section PlatoTheorems.

Import Plato.

Lemma one_line_no_terminators m :
  one_line m = true -> filter is_line_terminator m = [].
Proof.
  induction m as [| c m IH]; intros H; [reflexivity |].
  cbn [one_line forallb] in H. apply andb_prop in H as [Hc Hm].
  unfold dot in Hc. apply negb_true_iff in Hc. cbn [filter]. rewrite Hc. auto.
Qed.

Lemma strip_terminators_bounded n : forall s,
  (List.length s <= n)%nat ->
  filter is_line_terminator (strip_comments s) = filter is_line_terminator s.
Proof.
  induction n as [| n IH]; intros s Hn.
  - destruct s; [reflexivity | cbn in Hn; lia].
  - destruct s as [| c s]; [reflexivity |].
    destruct (match_at commentRemovalRegex (c :: s)) as [rest |] eqn:E.
    + destruct (match_covers _ _ E) as (m & Hs & Hm & Hl).
      rewrite Hs in E |- *. rewrite (strip_drop m rest Hm E), filter_app.
      rewrite (one_line_no_terminators m Hl). cbn [app]. apply IH.
      assert (List.length (c :: s) = List.length (m ++ rest)) as Hlen by (rewrite Hs; reflexivity).
      rewrite length_app in Hlen. destruct m; [contradiction |]. cbn in Hlen, Hn. lia.
    + rewrite (strip_keep c s E). cbn [filter]. rewrite IH by (cbn in Hn; lia).
      reflexivity.
Qed.

(** X11.  A text without a slash comes back unchanged. *)
Theorem text_without_slash_unchanged (s : text) :
  no_slash s = true -> strip_comments s = s.
Proof.
  intros H. rewrite <- (app_nil_r s) at 1. rewrite (strip_plain s [] H).
  apply app_nil_r.
Qed.

(** X12.  A line comment that is followed by a line feed or a carriage
    return is removed up to that character, which stays; nothing tells a
    comment from two slashes inside a string. *)
Theorem line_comment_removed (pre body : text) (t : N) (rest : text) :
  no_slash pre = true ->
  one_line body = true ->
  nl_or_cr t = true ->
  strip_comments (pre ++ [slash; slash] ++ body ++ t :: rest)
  = pre ++ t :: strip_comments rest.
Proof.
  intros Hp Hb Ht. rewrite (strip_plain pre _ Hp). f_equal.
  replace ([slash; slash] ++ body ++ t :: rest)
    with (([slash; slash] ++ body) ++ t :: rest) by (rewrite <- app_assoc; reflexivity).
  rewrite strip_drop.
  - apply strip_keep, no_match_without_slash.
    apply (terminator_plain t (nl_or_cr_terminator t Ht)).
  - discriminate.
  - rewrite <- app_assoc. apply match_line; assumption.
Qed.

(** X13.  A line comment that runs to the end of the input, or to a line
    separator other than line feed and carriage return, is not removed. *)
Theorem unterminated_line_comment_kept (pre body tail : text) :
  no_slash pre = true ->
  one_line body = true ->
  no_slash body = true ->
  match tail with
  | [] => true
  | t :: _ => is_line_terminator t && negb (nl_or_cr t)
  end = true ->
  strip_comments (pre ++ [slash; slash] ++ body ++ tail)
  = pre ++ [slash; slash] ++ body ++ strip_comments tail.
Proof.
  intros Hp Hl Hs Ht. rewrite (strip_plain pre _ Hp). f_equal.
  assert (Ht' : match tail with [] => true | t :: _ => is_line_terminator t end = true).
  { destruct tail as [| t tail]; [reflexivity |]. apply andb_prop in Ht as [Ht _]. exact Ht. }
  pose proof (no_match_unterminated body tail Hl Ht) as E1.
  cbn [app] in E1 |- *. rewrite (strip_keep _ _ E1). f_equal.
  rewrite strip_keep by (apply (no_match_lone_slash body tail Hs Ht')).
  f_equal. apply strip_plain, Hs.
Qed.

(** X14.  A block comment on one line, with a body that is not empty and
    holds no slash, is removed whole. *)
Theorem block_comment_removed (pre body rest : text) :
  no_slash pre = true ->
  body <> [] ->
  one_line body = true ->
  no_slash body = true ->
  strip_comments (pre ++ [slash; star] ++ body ++ [star; slash] ++ rest)
  = pre ++ strip_comments rest.
Proof.
  intros Hp Hne Hl Hs. rewrite (strip_plain pre _ Hp). f_equal.
  destruct body as [| b body]; [contradiction |].
  replace ([slash; star] ++ (b :: body) ++ [star; slash] ++ rest)
    with (([slash; star] ++ (b :: body) ++ [star; slash]) ++ rest)
    by (cbn [app]; rewrite <- app_assoc; reflexivity).
  apply strip_drop; [discriminate |].
  cbn [app]. rewrite <- app_assoc. apply (match_block b body rest Hl Hs).
Qed.

(** X15.  A block comment whose first line holds no slash is not removed:
    its opening and that line stay as they are (the dot of the expression
    does not cross a line terminator). *)
Theorem block_comment_over_lines_kept (pre a : text) (t : N) (rest : text) :
  no_slash pre = true ->
  no_slash a = true ->
  is_line_terminator t = true ->
  strip_comments (pre ++ [slash; star] ++ a ++ t :: rest)
  = pre ++ [slash; star] ++ a ++ t :: strip_comments rest.
Proof.
  intros Hp Ha Ht. rewrite (strip_plain pre _ Hp). f_equal.
  pose proof (no_match_open_block a t rest Ha Ht) as E1.
  cbn [app] in E1 |- *. rewrite (strip_keep _ _ E1). f_equal.
  rewrite strip_keep by (apply no_match_without_slash; reflexivity).
  f_equal. rewrite (strip_plain a _ Ha). f_equal.
  apply strip_keep, no_match_without_slash, (terminator_plain t Ht).
Qed.

(** X16.  An empty block comment is not recognised: when no slash follows
    it, it stays in the text. *)
Theorem empty_block_comment_kept (pre rest : text) :
  no_slash pre = true ->
  no_slash rest = true ->
  strip_comments (pre ++ [slash; star; star; slash] ++ rest)
  = pre ++ [slash; star; star; slash] ++ rest.
Proof.
  intros Hp Hr. rewrite (strip_plain pre _ Hp). f_equal.
  pose proof (no_match_empty_block rest Hr) as E1.
  cbn [app] in E1 |- *. rewrite (strip_keep _ _ E1). f_equal.
  rewrite strip_keep by (apply no_match_without_slash; reflexivity). f_equal.
  rewrite strip_keep by (apply no_match_without_slash; reflexivity). f_equal.
  pose proof (no_match_lone_slash rest [] Hr eq_refl) as E. rewrite app_nil_r in E.
  rewrite (strip_keep slash rest E). f_equal.
  rewrite <- (app_nil_r rest) at 1. rewrite (strip_plain rest [] Hr). apply app_nil_r.
Qed.

(** X17.  The removal keeps every line terminator of the text, in order:
    the text has the same lines before and after. *)
Theorem line_terminators_kept (s : text) :
  filter is_line_terminator (strip_comments s) = filter is_line_terminator s.
Proof. apply (strip_terminators_bounded (List.length s)). lia. Qed.

End PlatoTheorems.

(* ===================================================================== *)
(** ** More on the option merge *)
(* ===================================================================== *)

(** X18.  The merge never removes a key of the defaults and never makes
    one appear twice. *)
Theorem merge_keeps_keys (object : list (string * Options.jsval))
  (options : Options.jsref) :
  Options.distinct_keys object = true ->
  Options.distinct_keys (Options.merge object options) = true /\
  (forall k, Options.has k object = true ->
             Options.has k (Options.merge object options) = true).
Proof.
  intros Hd. unfold Options.merge, Options.baseMerge.
  destruct options; cbn [fst]; auto; apply forOwn_keeps; assumption.
Qed.

(** X19.  The merge descends only where both sides are objects.  Anywhere
    else a defined value of the caller, in which no array or object occurs
    twice and none has been merged before, is taken over whole: it replaces
    an array or a scalar of the defaults, and where the defaults have
    nothing it is copied. *)
Theorem caller_value_taken_whole (st : Options.stack) (a : Options.jsval)
  (b : Options.jsref) :
  Options.alias_free b = true ->
  Options.unseen (Options.ids b) st = true ->
  Options.wf (Options.content b) = true ->
  Options.content b <> Options.Undefined ->
  both_objects a (Options.content b) = false ->
  fst (Options.mergeValue Options.customizer st a b) = Options.content b.
Proof.
  intros Ha Hu Hw Hb Ho.
  destruct (mergeValue_alias_free Options.customizer b st a
              (distinct_ids_NoDup _ Ha) (unseen_fresh _ _ Hu)) as [E _].
  rewrite E. apply tree_value_taken_whole; [exact Hw | exact Hb |].
  destruct a; destruct (Options.content b); try reflexivity; discriminate.
Qed.

(* ===================================================================== *)
(** ** The further theorems at concrete inputs *)
(* ===================================================================== *)

(** lint-watch has counted two errors; test-watch then starts and fails. *)
Lemma nothing_taken_back_between_resets_witness :
  let h := posix ["watch"] in
  let p := run h [Start LintWatch;
                  Emit LintWatch (Data (dirty "lib/a.js" ["W033"; "W117"]))] boot in
  let es := [Start TestWatch; Emit TestWatch (Error "1 test failed");
             Emit LintWatch (Data (dirty "lib/b.js" ["W098"]))] in
  idle p /\ forallb keeps_state es = true /\
  2 <= totalLintErrors (vars (run h es p)).
Proof.
  cbv zeta. split; [split; reflexivity |]. split; [reflexivity |].
  apply (nothing_taken_back_between_resets (posix ["watch"])
           [Start TestWatch; Emit TestWatch (Error "1 test failed");
            Emit LintWatch (Data (dirty "lib/b.js" ["W098"]))]
           (run (posix ["watch"])
                [Start LintWatch;
                 Emit LintWatch (Data (dirty "lib/a.js" ["W033"; "W117"]))] boot)
           (conj eq_refl eq_refl) eq_refl).
Defined.

(** Both linted files pass, a file fails felint-watch, lint-watch ends. *)
Lemma lint_verdict_follows_shared_flag_witness :
  let h := posix ["watch-all"] in
  let files := [clean "lib/a.js"; clean "lib/b.js"] in
  let e := Emit FelintWatch (Data (dirty "content/c.js" ["W033"])) in
  any_failing files = false /\
  out (run h (Start LintWatch :: data LintWatch files ++ [e; Emit LintWatch End]) boot)
  = [ConsoleLog ["0"; ("errors" ++ nl)%string]; Beep].
Proof.
  cbv zeta. split; [reflexivity |].
  apply (lint_verdict_follows_shared_flag (posix ["watch-all"])
           [clean "lib/a.js"; clean "lib/b.js"]
           (Emit FelintWatch (Data (dirty "content/c.js" ["W033"])))
           boot (conj eq_refl eq_refl) eq_refl eq_refl eq_refl eq_refl).
Defined.

(** Two errors of the less stream, and no ['end']. *)
Lemma less_run_verdict_witness :
  let h := posix ["lessTest"] in
  let errs := ["ParseError: a.less"; "ParseError: b.less"] in
  idle boot /\
  out (run h (Start LessTest :: less_errors errs) boot) = map GutilLog errs.
Proof.
  cbv zeta. split; [split; reflexivity |].
  apply (proj1 (less_run_verdict (posix ["lessTest"])
                  ["ParseError: a.less"; "ParseError: b.less"] boot
                  (conj eq_refl eq_refl))).
Defined.

(** Three files, one with four violations. *)
Lemma lint_watch_run_verdict_witness :
  let h := posix ["watch-all"] in
  let files := [clean "lib/a.js";
                dirty "lib/b.js" ["W033"; "W117"; "W098"; "E031"];
                clean "test/a.js"] in
  idle boot /\
  out (run h (Start LintWatch :: data LintWatch files ++ [Emit LintWatch End]) boot)
  = [ConsoleLog ["4"; ("errors" ++ nl)%string]; Beep].
Proof.
  cbv zeta. split; [split; reflexivity |].
  apply (proj1 (lint_watch_run_verdict (posix ["watch-all"])
                  [clean "lib/a.js";
                   dirty "lib/b.js" ["W033"; "W117"; "W098"; "E031"];
                   clean "test/a.js"] boot (conj eq_refl eq_refl))).
Defined.

(** lint has counted four violations when felint starts. *)
Lemma late_reset_hides_failures_witness :
  let h := posix ["lint"; "felint"] in
  let files := [dirty "lib/b.js" ["W033"; "W117"; "W098"; "E031"]] in
  idle boot /\ resets Felint = true /\
  out (run h (Start Lint :: data Lint files ++ [Start Felint; Emit Lint End]) boot)
  = [ConsoleLog ["✔ gulp 'lint' passed"]].
Proof.
  cbv zeta. split; [split; reflexivity |]. split; [reflexivity |].
  apply (late_reset_hides_failures (posix ["lint"; "felint"])
           [dirty "lib/b.js" ["W033"; "W117"; "W098"; "E031"]] Felint boot
           (conj eq_refl eq_refl) eq_refl).
Defined.

(** A test fails while lint-watch has counted two errors. *)
Lemma listeners_write_their_own_variables_witness :
  let h := posix ["watch-all"] in
  let p := run h [Start LintWatch;
                  Emit LintWatch (Data (dirty "lib/a.js" ["W033"; "W117"]))] boot in
  let e := Emit TestCoverWatch (Error "1 test failed") in
  idle p /\ keeps_state e = true /\
  totalLintErrors (vars (step h p e)) = 2.
Proof.
  cbv zeta. split; [split; reflexivity |]. split; [reflexivity |].
  apply (proj1 (listeners_write_their_own_variables (posix ["watch-all"])
                  (run (posix ["watch-all"])
                       [Start LintWatch;
                        Emit LintWatch (Data (dirty "lib/a.js" ["W033"; "W117"]))] boot)
                  (Emit TestCoverWatch (Error "1 test failed"))
                  (conj eq_refl eq_refl) eq_refl) eq_refl).
Defined.

Lemma text_without_slash_unchanged_witness :
  let s := Plato.of_string "{ 'node': true, 'maxlen': 80 }" in
  Plato.no_slash s = true /\ Plato.strip_comments s = s.
Proof.
  cbv zeta. split; [reflexivity |].
  apply (text_without_slash_unchanged
           (Plato.of_string "{ 'node': true, 'maxlen': 80 }") eq_refl).
Defined.

(** Two slashes inside a string are taken for a comment. *)
Lemma line_comment_removed_witness :
  let pre := Plato.of_string "{ 'globals': 'http:" in
  let body := Plato.of_string "example.org/globals', 'node': true" in
  let rest := Plato.of_string "}" in
  Plato.strip_comments
    (pre ++ [Plato.slash; Plato.slash] ++ body ++ Plato.LF :: rest)
  = pre ++ Plato.LF :: Plato.strip_comments rest.
Proof.
  cbv zeta.
  apply (line_comment_removed (Plato.of_string "{ 'globals': 'http:")
           (Plato.of_string "example.org/globals', 'node': true") Plato.LF
           (Plato.of_string "}") eq_refl eq_refl eq_refl).
Defined.

(** A comment on the last line, with no line feed behind it. *)
Lemma unterminated_line_comment_kept_witness :
  let pre := Plato.of_string "{ 'node': true } " in
  let body := Plato.of_string " server side" in
  Plato.strip_comments (pre ++ [Plato.slash; Plato.slash] ++ body ++ [])
  = pre ++ [Plato.slash; Plato.slash] ++ body ++ Plato.strip_comments [].
Proof.
  cbv zeta.
  apply (unterminated_line_comment_kept (Plato.of_string "{ 'node': true } ")
           (Plato.of_string " server side") [] eq_refl eq_refl eq_refl eq_refl).
Defined.

Lemma block_comment_removed_witness :
  let pre := Plato.of_string "{ " in
  let body := Plato.of_string " environment " in
  let rest := Plato.of_string " 'node': true }" in
  body <> [] /\
  Plato.strip_comments
    (pre ++ [Plato.slash; Plato.star] ++ body ++ [Plato.star; Plato.slash] ++ rest)
  = pre ++ Plato.strip_comments rest.
Proof.
  cbv zeta. split; [discriminate |].
  apply (block_comment_removed (Plato.of_string "{ ")
           (Plato.of_string " environment ") (Plato.of_string " 'node': true }")
           eq_refl); [discriminate | reflexivity | reflexivity].
Defined.

Lemma block_comment_over_lines_kept_witness :
  let pre := Plato.of_string "{ " in
  let a := Plato.of_string " environment" in
  let rest := Plato.of_string "   settings *" ++ [Plato.slash] ++ Plato.of_string " }" in
  Plato.strip_comments (pre ++ [Plato.slash; Plato.star] ++ a ++ Plato.LF :: rest)
  = pre ++ [Plato.slash; Plato.star] ++ a ++ Plato.LF :: Plato.strip_comments rest.
Proof.
  cbv zeta.
  apply (block_comment_over_lines_kept (Plato.of_string "{ ")
           (Plato.of_string " environment") Plato.LF
           (Plato.of_string "   settings *" ++ [Plato.slash] ++ Plato.of_string " }")
           eq_refl eq_refl eq_refl).
Defined.

Lemma empty_block_comment_kept_witness :
  let pre := Plato.of_string "{ " in
  let rest := Plato.of_string " 'node': true }" in
  Plato.strip_comments
    (pre ++ [Plato.slash; Plato.star; Plato.star; Plato.slash] ++ rest)
  = pre ++ [Plato.slash; Plato.star; Plato.star; Plato.slash] ++ rest.
Proof.
  cbv zeta.
  apply (empty_block_comment_kept (Plato.of_string "{ ")
           (Plato.of_string " 'node': true }") eq_refl eq_refl).
Defined.

(** The caller adds a key and replaces an array. *)
Lemma merge_keeps_keys_witness :
  let options :=
    Options.RObj 1 [("paths", Options.RObj 2 [("lint", Options.rstrs 3 ["src/**/*.js"])]);
                    ("extra", Options.RNum 1)] in
  Options.distinct_keys (Options.defaults "s" "c") = true /\
  Options.distinct_keys (Options.merge (Options.defaults "s" "c") options) = true /\
  Options.has "lessOpts" (Options.merge (Options.defaults "s" "c") options) = true.
Proof.
  cbv zeta. split; [reflexivity |].
  destruct (merge_keeps_keys (Options.defaults "s" "c")
              (Options.RObj 1
                 [("paths", Options.RObj 2 [("lint", Options.rstrs 3 ["src/**/*.js"])]);
                  ("extra", Options.RNum 1)]) eq_refl) as [A B].
  split; [exact A | apply B; reflexivity].
Defined.

(** The caller gives an object where the default is an array. *)
Lemma caller_value_taken_whole_witness :
  let a := Options.strs ["lib/**/*.js"] in
  let b := Options.RObj 1 [("include", Options.rstrs 2 ["src/**/*.js"]);
                           ("exclude", Options.RUndefined)] in
  Options.alias_free b = true /\ both_objects a (Options.content b) = false /\
  fst (Options.mergeValue Options.customizer [] a b) = Options.content b.
Proof.
  cbv zeta. split; [reflexivity |]. split; [reflexivity |].
  apply (caller_value_taken_whole [] (Options.strs ["lib/**/*.js"])
           (Options.RObj 1 [("include", Options.rstrs 2 ["src/**/*.js"]);
                            ("exclude", Options.RUndefined)])
           eq_refl eq_refl eq_refl); [discriminate | reflexivity].
Defined.
